(** * InstanceSecret: the n8n node that encrypts and decrypts strings

    A shallow embedding of [dist/nodes/InstanceSecret/InstanceSecret.node.js]
    (compiled from [InstanceSecret.node.ts]); line numbers are those of the
    compiled file.

    - JavaScript strings are sequences of UTF-16 code units ([list Z]);
      [String.prototype.length] is the length of that list.
    - A [Buffer] is a [list byte].
    - JSON objects of the items are finite maps from field names to values.
    - The AES-256 block permutation itself is a parameter of the
      development; the CBC chaining, the PKCS#7 padding, the text
      encodings and everything the node does with them are defined here. *)

From Stdlib Require Import ZArith Lia Bool List Ascii String Decimal.
From Stdlib.Strings Require Import Byte.
From stdpp Require Import gmap list.

Local Open Scope Z_scope.

(** ** Bytes *)

Definition byte_to_Z (b : byte) : Z := Z.of_N (Byte.to_N b).

Definition byte_of_Z (z : Z) : byte :=
  match Byte.of_N (Z.to_N (z mod 256)) with
  | Some b => b
  | None => x00
  end.

Definition byte_xor (a b : byte) : byte :=
  let '(a0, (a1, (a2, (a3, (a4, (a5, (a6, a7))))))) := Byte.to_bits a in
  let '(b0, (b1, (b2, (b3, (b4, (b5, (b6, b7))))))) := Byte.to_bits b in
  Byte.of_bits
    (xorb a0 b0, (xorb a1 b1, (xorb a2 b2, (xorb a3 b3,
    (xorb a4 b4, (xorb a5 b5, (xorb a6 b6, xorb a7 b7))))))).

(** [Buffer] XOR, position by position. *)
Definition xor_bytes (a b : list byte) : list byte := zip_with byte_xor a b.

(** ** JavaScript strings *)

(** A string is its sequence of UTF-16 code units. *)
Abbreviation jsstring := (list Z).

(** A literal of the source, all of whose characters are ASCII. *)
Definition js (s : string) : jsstring :=
  List.map (fun a => Z.of_N (N_of_ascii a)) (list_ascii_of_string s).

(** [s.includes(c)] for a one-character needle. *)
Definition includes (c : Z) (s : jsstring) : bool := existsb (Z.eqb c) s.

(** [s.split(sep)] for a one-character separator: never empty, the empty
    string gives one empty segment. *)
Fixpoint split (sep : Z) (s : jsstring) : list jsstring :=
  match s with
  | [] => [[]]
  | c :: r =>
      if c =? sep then [] :: split sep r
      else match split sep r with
           | seg :: segs => (c :: seg) :: segs
           | [] => [[c]]
           end
  end.

(** [s.replace(/c/g, d)] for single characters. *)
Definition replace_all (c d : Z) (s : jsstring) : jsstring :=
  List.map (fun x => if x =? c then d else x) s.

(** [s.replace(/c/g, '')]. *)
Definition remove_all (c : Z) (s : jsstring) : jsstring :=
  List.filter (fun x => negb (x =? c)) s.

(** [s.padEnd(n, c)]: code units are counted, not bytes. *)
Definition padEnd (n : nat) (c : Z) (s : jsstring) : jsstring :=
  s ++ replicate (n - length s) c.

(** [s.slice(0, n)]. *)
Definition slice0 (n : nat) (s : jsstring) : jsstring := take n s.

(** Template-literal rendering of a non-negative integer. *)
Fixpoint uint_chars (d : Decimal.uint) : jsstring :=
  match d with
  | Decimal.Nil => []
  | Decimal.D0 d => 48 :: uint_chars d
  | Decimal.D1 d => 49 :: uint_chars d
  | Decimal.D2 d => 50 :: uint_chars d
  | Decimal.D3 d => 51 :: uint_chars d
  | Decimal.D4 d => 52 :: uint_chars d
  | Decimal.D5 d => 53 :: uint_chars d
  | Decimal.D6 d => 54 :: uint_chars d
  | Decimal.D7 d => 55 :: uint_chars d
  | Decimal.D8 d => 56 :: uint_chars d
  | Decimal.D9 d => 57 :: uint_chars d
  end.

Definition number_to_string (n : nat) : jsstring := uint_chars (Nat.to_uint n).

(** *** Character classes of the regular expressions *)

Definition in_range (lo hi c : Z) : bool := (lo <=? c) && (c <=? hi).

Definition is_digit (c : Z) : bool := in_range 48 57 c.
Definition is_upper (c : Z) : bool := in_range 65 90 c.
Definition is_lower (c : Z) : bool := in_range 97 122 c.

(** [[0-9a-fA-F]] *)
Definition is_hex_char (c : Z) : bool :=
  is_digit c || in_range 97 102 c || in_range 65 70 c.

(** [[0-9a-f]] *)
Definition is_lower_hex_char (c : Z) : bool :=
  is_digit c || in_range 97 102 c.

(** [[+/=]] *)
Definition is_base64_punct (c : Z) : bool :=
  (c =? 43) || (c =? 47) || (c =? 61).

(** [[A-Za-z0-9_-]] *)
Definition is_base64url_char (c : Z) : bool :=
  is_upper c || is_lower c || is_digit c || (c =? 95) || (c =? 45).

(** [/^[cls]+$/.test(s)]: non-empty and every code unit in the class. *)
Definition test_all (cls : Z -> bool) (s : jsstring) : bool :=
  negb (Nat.eqb (length s) 0) && forallb cls s.

(** [/[cls]/.test(s)]: some code unit in the class. *)
Definition test_any (cls : Z -> bool) (s : jsstring) : bool := existsb cls s.

(** ** UTF-16 and UTF-8 *)

Definition is_high_surrogate (u : Z) : bool := in_range 0xD800 0xDBFF u.
Definition is_low_surrogate (u : Z) : bool := in_range 0xDC00 0xDFFF u.

(** The code points of a string, as the UTF-8 encoder of [Buffer.from]
    and of [cipher.update(s, 'utf8')] reads them: a surrogate pair is one
    code point, an unpaired surrogate is replaced by U+FFFD. *)
Fixpoint code_points (s : jsstring) : list Z :=
  match s with
  | [] => []
  | u :: r =>
      if is_high_surrogate u then
        match r with
        | v :: r' =>
            if is_low_surrogate v
            then (0x10000 + (u - 0xD800) * 0x400 + (v - 0xDC00)) :: code_points r'
            else 0xFFFD :: code_points r
        | [] => [0xFFFD]
        end
      else if is_low_surrogate u then 0xFFFD :: code_points r
      else u :: code_points r
  end.

(** [String.prototype.isWellFormed]: code units in range, no unpaired
    surrogate.  These are the strings that are Unicode text. *)
Fixpoint isWellFormed (s : jsstring) : bool :=
  match s with
  | [] => true
  | u :: r =>
      if is_high_surrogate u then
        match r with
        | v :: r' => is_low_surrogate v && isWellFormed r'
        | [] => false
        end
      else negb (is_low_surrogate u) && in_range 0 0xFFFF u && isWellFormed r
  end.

Definition utf8_of_code_point (c : Z) : list byte :=
  if c <? 0x80 then [byte_of_Z c]
  else if c <? 0x800 then
    [byte_of_Z (0xC0 + c / 64); byte_of_Z (0x80 + c mod 64)]
  else if c <? 0x10000 then
    [byte_of_Z (0xE0 + c / 4096); byte_of_Z (0x80 + (c / 64) mod 64);
     byte_of_Z (0x80 + c mod 64)]
  else
    [byte_of_Z (0xF0 + c / 262144); byte_of_Z (0x80 + (c / 4096) mod 64);
     byte_of_Z (0x80 + (c / 64) mod 64); byte_of_Z (0x80 + c mod 64)].

(** [Buffer.from(s)] and [Buffer.from(s, 'utf8')]. *)
Definition utf8_encode (s : jsstring) : list byte :=
  flat_map utf8_of_code_point (code_points s).

Definition is_continuation (lo hi : Z) (b : byte) : bool :=
  in_range lo hi (byte_to_Z b).

Definition cont_bits (b : byte) : Z := byte_to_Z b - 0x80.

(** The UTF-8 decoder of [buf.toString('utf8')] and of the string decoder
    behind [decipher.update(_, _, 'utf8')]: every maximal ill-formed
    subsequence gives one U+FFFD. *)
Fixpoint utf8_decode (bs : list byte) : list Z :=
  match bs with
  | [] => []
  | b0 :: r0 =>
      let z0 := byte_to_Z b0 in
      if z0 <? 0x80 then z0 :: utf8_decode r0
      else if in_range 0xC2 0xDF z0 then
        match r0 with
        | b1 :: r1 =>
            if is_continuation 0x80 0xBF b1
            then ((z0 - 0xC0) * 64 + cont_bits b1) :: utf8_decode r1
            else 0xFFFD :: utf8_decode r0
        | [] => [0xFFFD]
        end
      else if in_range 0xE0 0xEF z0 then
        match r0 with
        | b1 :: r1 =>
            if is_continuation (if z0 =? 0xE0 then 0xA0 else 0x80)
                               (if z0 =? 0xED then 0x9F else 0xBF) b1
            then
              match r1 with
              | b2 :: r2 =>
                  if is_continuation 0x80 0xBF b2
                  then ((z0 - 0xE0) * 4096 + cont_bits b1 * 64 + cont_bits b2)
                         :: utf8_decode r2
                  else 0xFFFD :: utf8_decode r1
              | [] => [0xFFFD]
              end
            else 0xFFFD :: utf8_decode r0
        | [] => [0xFFFD]
        end
      else if in_range 0xF0 0xF4 z0 then
        match r0 with
        | b1 :: r1 =>
            if is_continuation (if z0 =? 0xF0 then 0x90 else 0x80)
                               (if z0 =? 0xF4 then 0x8F else 0xBF) b1
            then
              match r1 with
              | b2 :: r2 =>
                  if is_continuation 0x80 0xBF b2
                  then
                    match r2 with
                    | b3 :: r3 =>
                        if is_continuation 0x80 0xBF b3
                        then ((z0 - 0xF0) * 262144 + cont_bits b1 * 4096
                              + cont_bits b2 * 64 + cont_bits b3)
                               :: utf8_decode r3
                        else 0xFFFD :: utf8_decode r2
                    | [] => [0xFFFD]
                    end
                  else 0xFFFD :: utf8_decode r1
              | [] => [0xFFFD]
              end
            else 0xFFFD :: utf8_decode r0
        | [] => [0xFFFD]
        end
      else 0xFFFD :: utf8_decode r0
  end.

Definition utf16_of_code_point (c : Z) : jsstring :=
  if c <? 0x10000 then [c]
  else [0xD800 + (c - 0x10000) / 0x400; 0xDC00 + (c - 0x10000) mod 0x400].

(** [buf.toString('utf8')]. *)
Definition utf8_decode_string (bs : list byte) : jsstring :=
  flat_map utf16_of_code_point (utf8_decode bs).

(** ** Hexadecimal *)

Definition hex_digit (d : Z) : Z := if d <? 10 then 48 + d else 87 + d.

(** [buf.toString('hex')]: two lowercase digits per byte. *)
Definition hex_encode (bs : list byte) : jsstring :=
  flat_map (fun b => [hex_digit (byte_to_Z b / 16); hex_digit (byte_to_Z b mod 16)]) bs.

(** [Buffer.from] reads a code unit of a hex or base64 text by its low
    byte: U+0130 counts as [0], U+0141 as [A]. *)
Definition low_byte (c : Z) : Z := c mod 256.

Definition unhex (c : Z) : option Z :=
  let b := low_byte c in
  if is_digit b then Some (b - 48)
  else if in_range 97 102 b then Some (b - 87)
  else if in_range 65 70 b then Some (b - 55)
  else None.

(** [Buffer.from(s, 'hex')]: pairs of digits are decoded until the first
    pair that is not two hexadecimal digits; a trailing single character is
    dropped. *)
Fixpoint hex_decode (s : jsstring) : list byte :=
  match s with
  | a :: b :: r =>
      match unhex a, unhex b with
      | Some x, Some y => byte_of_Z (16 * x + y) :: hex_decode r
      | _, _ => []
      end
  | _ => []
  end.

(** ** Base64 *)

Definition base64_char (v : Z) : Z :=
  if v <? 26 then 65 + v
  else if v <? 52 then 97 + (v - 26)
  else if v <? 62 then 48 + (v - 52)
  else if v =? 62 then 43
  else 47.

(** [buf.toString('base64')]: standard alphabet, [=] padding. *)
Fixpoint base64_encode (bs : list byte) : jsstring :=
  match bs with
  | [] => []
  | [a] =>
      let x := byte_to_Z a in
      [base64_char (x / 4); base64_char ((x mod 4) * 16); 61; 61]
  | [a; b] =>
      let x := byte_to_Z a in
      let y := byte_to_Z b in
      [base64_char (x / 4); base64_char ((x mod 4) * 16 + y / 16);
       base64_char ((y mod 16) * 4); 61]
  | a :: b :: c :: r =>
      let x := byte_to_Z a in
      let y := byte_to_Z b in
      let z := byte_to_Z c in
      base64_char (x / 4) :: base64_char ((x mod 4) * 16 + y / 16)
        :: base64_char ((y mod 16) * 4 + z / 64) :: base64_char (z mod 64)
        :: base64_encode r
  end.

(** The value of a base64 character; Node accepts both the standard
    alphabet and the URL-safe one. *)
Definition unbase64 (c : Z) : option Z :=
  let b := low_byte c in
  if is_upper b then Some (b - 65)
  else if is_lower b then Some (b - 97 + 26)
  else if is_digit b then Some (b - 48 + 52)
  else if (b =? 43) || (b =? 45) then Some 62
  else if (b =? 47) || (b =? 95) then Some 63
  else None.

(** The 6-bit values [Buffer.from(s, 'base64')] reads: decoding stops at
    the first [=], other characters outside the alphabets are skipped. *)
Fixpoint base64_values (s : jsstring) : list Z :=
  match s with
  | [] => []
  | c :: r =>
      if low_byte c =? 61 then []
      else match unbase64 c with
           | Some v => v :: base64_values r
           | None => base64_values r
           end
  end.

Fixpoint bytes_of_base64_values (vs : list Z) : list byte :=
  match vs with
  | v1 :: v2 :: v3 :: v4 :: r =>
      byte_of_Z (v1 * 4 + v2 / 16) :: byte_of_Z ((v2 mod 16) * 16 + v3 / 4)
        :: byte_of_Z ((v3 mod 4) * 64 + v4) :: bytes_of_base64_values r
  | [v1; v2; v3] =>
      [byte_of_Z (v1 * 4 + v2 / 16); byte_of_Z ((v2 mod 16) * 16 + v3 / 4)]
  | [v1; v2] => [byte_of_Z (v1 * 4 + v2 / 16)]
  | _ => []
  end.

(** [Buffer.from(s, 'base64')]. *)
Definition base64_decode (s : jsstring) : list byte :=
  bytes_of_base64_values (base64_values s).

(** ** Buffers and string decoders *)

(** The two [BufferEncoding]s the node hands to Node.js. *)
Inductive BufferEncoding := hex | base64.

Definition Buffer_toString (encoding : BufferEncoding) (b : list byte) : jsstring :=
  match encoding with
  | hex => hex_encode b
  | base64 => base64_encode b
  end.

Definition Buffer_from (s : jsstring) (encoding : BufferEncoding) : list byte :=
  match encoding with
  | hex => hex_decode s
  | base64 => base64_decode s
  end.

(** The [StringDecoder] a cipher keeps for its output encoding.  For
    base64 it holds back the bytes that do not fill a group of three and
    emits them, padded, at the end; for hex it holds nothing back. *)
Definition decoder_held (encoding : BufferEncoding) (n : nat) : nat :=
  match encoding with
  | hex => 0%nat
  | base64 => (n mod 3)%nat
  end.

Definition decoder_write (encoding : BufferEncoding) (held buf : list byte)
  : jsstring * list byte :=
  let all := held ++ buf in
  let n := (length all - decoder_held encoding (length all))%nat in
  (Buffer_toString encoding (take n all), drop n all).

Definition decoder_end (encoding : BufferEncoding) (held buf : list byte) : jsstring :=
  let '(r, held') := decoder_write encoding held buf in
  r ++ Buffer_toString encoding held'.

(** ** The cipher: AES-256 in CBC mode with PKCS#7 padding *)

(** The block permutation, keyed: [encrypt_block key block]. *)
Record block_cipher := {
  encrypt_block : list byte -> list byte -> list byte;
  decrypt_block : list byte -> list byte -> list byte
}.

(** What the development assumes of AES-256: under a 32-byte key, blocks of
    16 bytes go to blocks of 16 bytes and [decrypt_block] undoes
    [encrypt_block]. *)
Definition block_cipher_ok (aes : block_cipher) : Prop :=
  forall key block, length key = 32%nat -> length block = 16%nat ->
    length (encrypt_block aes key block) = 16%nat /\
    decrypt_block aes key (encrypt_block aes key block) = block.

(** A stand-in permutation, for running the model on concrete inputs. *)
Definition xor_cipher : block_cipher :=
  {| encrypt_block := fun key block => xor_bytes block (take 16 key);
     decrypt_block := fun key block => xor_bytes block (take 16 key) |}.

(** The errors of [crypto] the node can meet. *)
Inductive CryptoError :=
| InvalidKeyLength
| InvalidIV
| WrongFinalBlockLength
| BadDecrypt.

Definition crypto_message (e : CryptoError) : jsstring :=
  match e with
  | InvalidKeyLength => js "Invalid key length"
  | InvalidIV => js "Invalid initialization vector"
  | WrongFinalBlockLength =>
      js "error:1C80006B:Provider routines::wrong final block length"
  | BadDecrypt => js "error:1C800064:Provider routines::bad decrypt"
  end.

(** A buffer cut into 16-byte blocks (the last one shorter when the length
    is no multiple of 16). *)
Fixpoint blocks_of (fuel : nat) (l : list byte) : list (list byte) :=
  match fuel with
  | O => []
  | S fuel' =>
      match l with
      | [] => []
      | _ => take 16 l :: blocks_of fuel' (drop 16 l)
      end
  end.

Definition blocks (l : list byte) : list (list byte) := blocks_of (length l) l.

Fixpoint cbc_encrypt_blocks (E : list byte -> list byte) (chain : list byte)
    (bs : list (list byte)) : list (list byte) :=
  match bs with
  | [] => []
  | b :: r =>
      let c := E (xor_bytes b chain) in
      c :: cbc_encrypt_blocks E c r
  end.

Fixpoint cbc_decrypt_blocks (D : list byte -> list byte) (chain : list byte)
    (cs : list (list byte)) : list (list byte) :=
  match cs with
  | [] => []
  | c :: r => xor_bytes (D c) chain :: cbc_decrypt_blocks D c r
  end.

Definition pkcs7_pad (data : list byte) : list byte :=
  let n := (16 - length data mod 16)%nat in
  data ++ replicate n (byte_of_Z (Z.of_nat n)).

Definition pkcs7_unpad (data : list byte) : CryptoError + list byte :=
  let n := Z.to_nat (byte_to_Z (List.last data x00)) in
  if (n =? 0)%nat || (16 <? n)%nat then inl BadDecrypt
  else if forallb (fun b => byte_to_Z b =? Z.of_nat n) (drop (length data - n) data)
  then inr (take (length data - n) data)
  else inl BadDecrypt.

(** The state of a [Cipher] object: key, chaining value, the input bytes
    that do not fill a block yet, and the bytes its string decoder holds. *)
Record Cipher := {
  cipher_key : list byte;
  cipher_chain : list byte;
  cipher_held : list byte;
  cipher_decoder : list byte
}.

(** [createCipheriv('aes-256-cbc', key, iv)]. *)
Definition createCipheriv (key iv : list byte) : CryptoError + Cipher :=
  if negb (length iv =? 16)%nat then inl InvalidIV
  else if negb (length key =? 32)%nat then inl InvalidKeyLength
  else inr {| cipher_key := key; cipher_chain := iv;
              cipher_held := []; cipher_decoder := [] |}.

(** [cipher.update(data)]: the complete blocks are encrypted, the rest is
    held. *)
Definition cipher_update (aes : block_cipher) (c : Cipher) (data : list byte)
  : list byte * Cipher :=
  let all := cipher_held c ++ data in
  let n := (length all / 16 * 16)%nat in
  let out := cbc_encrypt_blocks (encrypt_block aes (cipher_key c)) (cipher_chain c)
               (blocks (take n all)) in
  (concat out,
   {| cipher_key := cipher_key c;
      cipher_chain := List.last out (cipher_chain c);
      cipher_held := drop n all;
      cipher_decoder := cipher_decoder c |}).

(** [cipher.final()]: the held bytes, padded, make the last block. *)
Definition cipher_final (aes : block_cipher) (c : Cipher) : list byte :=
  concat (cbc_encrypt_blocks (encrypt_block aes (cipher_key c)) (cipher_chain c)
            (blocks (pkcs7_pad (cipher_held c)))).

(** [cipher.update(data, 'utf8', encoding)]. *)
Definition cipher_update_string (aes : block_cipher) (c : Cipher) (data : jsstring)
    (encoding : BufferEncoding) : jsstring * Cipher :=
  let '(out, c') := cipher_update aes c (utf8_encode data) in
  let '(s, held) := decoder_write encoding (cipher_decoder c') out in
  (s, {| cipher_key := cipher_key c'; cipher_chain := cipher_chain c';
         cipher_held := cipher_held c'; cipher_decoder := held |}).

(** [cipher.final(encoding)]. *)
Definition cipher_final_string (aes : block_cipher) (c : Cipher)
    (encoding : BufferEncoding) : jsstring :=
  decoder_end encoding (cipher_decoder c) (cipher_final aes c).

Record Decipher := {
  decipher_key : list byte;
  decipher_iv : list byte
}.

(** [createDecipheriv('aes-256-cbc', key, iv)]. *)
Definition createDecipheriv (key iv : list byte) : CryptoError + Decipher :=
  if negb (length iv =? 16)%nat then inl InvalidIV
  else if negb (length key =? 32)%nat then inl InvalidKeyLength
  else inr {| decipher_key := key; decipher_iv := iv |}.

(** The bytes that [decipher.update(data)] and [decipher.final()] return
    between them: [final] throws when no complete last block is there or
    when its padding is wrong. *)
Definition decipher_bytes (aes : block_cipher) (d : Decipher) (data : list byte)
  : CryptoError + list byte :=
  if (length data =? 0)%nat || negb (length data mod 16 =? 0)%nat
  then inl WrongFinalBlockLength
  else pkcs7_unpad
         (concat (cbc_decrypt_blocks (decrypt_block aes (decipher_key d))
                    (decipher_iv d) (blocks data))).

(** [decipher.update(data, undefined, 'utf8') + decipher.final('utf8')]:
    the string decoder of the decipher joins the two outputs, so the sum is
    the decoding of all the plaintext bytes. *)
Definition decipher_string (aes : block_cipher) (d : Decipher) (data : list byte)
  : CryptoError + jsstring :=
  match decipher_bytes aes d data with
  | inl e => inl e
  | inr plain => inr (utf8_decode_string plain)
  end.

(** ** The node: data *)

Inductive js_value :=
| JUndefined
| JNull
| JBool (b : bool)
| JNumber (n : Z)
| JString (s : jsstring).

(** [v !== false] *)
Definition strict_not_false (v : js_value) : bool :=
  match v with
  | JBool false => false
  | _ => true
  end.

(** The values of the 'Output Format' option, as the description offers
    them (lines 83 to 96): the development covers these three.  A string
    outside them, which line 120 would hand on to Node.js, is not
    modelled. *)
Inductive OutputFormat := Hex | Base64 | Base64URL.

(** The 'options' collection; an option left out is [undefined]. *)
Record Options := {
  opt_keepOriginal : js_value;
  opt_outputFormat : option OutputFormat
}.

(** What [getNodeParameter] gives for one item, with the types the
    description declares: strings for the operation, the input and the name
    of the output field. *)
Record NodeParameters := {
  param_operation : jsstring;
  param_inputField : jsstring;
  param_outputFieldName : jsstring;
  param_options : Options
}.

Record INodeExecutionData := {
  json : gmap jsstring js_value;
  pairedItem : option nat
}.

(** The errors of the node, by the place that throws them; the text is
    [error_message]. *)
Inductive NodeError :=
| KeyNotSet
| InvalidFormat
| UndetectableEncoding (ivLength : nat)
| DecryptionFailed (cause : CryptoError)
| UnknownOperation (operation : jsstring)
| CipherError (cause : CryptoError).

Definition error_message (e : NodeError) : jsstring :=
  match e with
  | KeyNotSet => js "N8N_ENCRYPTION_KEY environment variable is not set"
  | InvalidFormat =>
      js "Invalid encrypted text format. Expected format: iv.encryptedData"
  | UndetectableEncoding ivLength =>
      js "Unable to detect encoding format. IV length: "
        ++ number_to_string ivLength
        ++ js ". Expected 32 (hex), 24 (base64), or 22 (base64url)"
  | DecryptionFailed cause => js "Decryption failed: " ++ crypto_message cause
  | UnknownOperation operation => js "Unknown operation: " ++ operation
  | CipherError cause => crypto_message cause
  end.

(** The error kinds of the specification. *)
Definition is_ConfigError (e : NodeError) : bool :=
  match e with KeyNotSet => true | _ => false end.

Definition is_FormatError (e : NodeError) : bool :=
  match e with InvalidFormat | UndetectableEncoding _ => true | _ => false end.

Definition is_DecryptError (e : NodeError) : bool :=
  match e with DecryptionFailed _ => true | _ => false end.

Definition is_UnknownOperationError (e : NodeError) : bool :=
  match e with UnknownOperation _ => true | _ => false end.

(** An error as it leaves [execute]. *)
Record Thrown := {
  thrown_error : NodeError;
  thrown_itemIndex : option nat
}.

(** The surroundings of a run: the block cipher, the random source (an
    unbounded tape of bytes) and the process environment. *)
Record Host := {
  aes : block_cipher;
  entropy : nat -> byte;
  env_N8N_ENCRYPTION_KEY : option jsstring
}.

(** [this] inside [execute]. *)
Record IExecuteFunctions := {
  getInputData : list INodeExecutionData;
  getNodeParameter : nat -> NodeParameters;
  continueOnFail : bool
}.

(** ** The node: effects *)

(** A computation may throw and may draw from the random tape; the state
    is the position on the tape. *)
Definition Exec (A : Type) : Type := nat -> (NodeError + A) * nat.

Definition ret {A} (a : A) : Exec A := fun pos => (inr a, pos).

Definition throw {A} (e : NodeError) : Exec A := fun pos => (inl e, pos).

Definition bind {A B} (m : Exec A) (k : A -> Exec B) : Exec B :=
  fun pos =>
    match m pos with
    | (inr a, pos') => k a pos'
    | (inl e, pos') => (inl e, pos')
    end.

Notation "'let*' x ':=' m 'in' k" := (bind m (fun x => k))
  (at level 10, x name, m at level 100, k at level 200).

(** [randomBytes(n)] *)
Definition randomBytes (h : Host) (n : nat) : Exec (list byte) :=
  fun pos => (inr (List.map (entropy h) (seq pos n)), (pos + n)%nat).

(** A call into [crypto] that may throw a plain [Error]. *)
Definition crypto {A} (r : CryptoError + A) : Exec A :=
  match r with
  | inl e => throw (CipherError e)
  | inr a => ret a
  end.

Definition pure_result {A} (r : NodeError + A) : Exec A :=
  match r with
  | inl e => throw e
  | inr a => ret a
  end.

(** ** The node: [execute] *)

(** Line 112: [Buffer.from(encryptionKey.padEnd(32, '0').slice(0, 32))]. *)
Definition derive_key (encryptionKey : jsstring) : list byte :=
  utf8_encode (slice0 32 (padEnd 32 48 encryptionKey)).

(** [.replace(/\+/g, '-').replace(/\//g, '_').replace(/=/g, '')] *)
Definition to_base64url (s : jsstring) : jsstring :=
  remove_all 61 (replace_all 47 95 (replace_all 43 45 s)).

(** [.replace(/-/g, '+').replace(/_/g, '/')] *)
Definition from_base64url (s : jsstring) : jsstring :=
  replace_all 95 47 (replace_all 45 43 s).

(** The encoding the [else] branch of the encrypt path hands to Node.js. *)
Definition as_BufferEncoding (outputFormat : OutputFormat) : BufferEncoding :=
  match outputFormat with
  | Hex => hex
  | _ => base64
  end.

(** The token for a given IV: lines 124 to 148.  For the formats of the
    description the [else] branch runs with 'hex' and with 'base64'. *)
Definition encrypt_with_iv (a : block_cipher) (key iv : list byte)
    (inputField : jsstring) (outputFormat : OutputFormat) : CryptoError + jsstring :=
  match createCipheriv key iv with
  | inl e => inl e
  | inr cipher =>
      let '(ivString, encrypted) :=
        match outputFormat with
        | Base64URL =>
            let '(updated, cipher) := cipher_update a cipher (utf8_encode inputField) in
            let encryptedBuffer := updated ++ cipher_final a cipher in
            (to_base64url (base64_encode iv),
             to_base64url (base64_encode encryptedBuffer))
        | _ =>
            let encoding := as_BufferEncoding outputFormat in
            let '(encrypted, cipher) :=
              cipher_update_string a cipher inputField encoding in
            let encrypted := encrypted ++ cipher_final_string a cipher encoding in
            (Buffer_toString encoding iv, encrypted)
        end in
      inr (ivString ++ [46] ++ encrypted)
  end.

(** The encrypt branch: lines 123 to 148. *)
Definition encrypt (h : Host) (key : list byte) (inputField : jsstring)
    (outputFormat : OutputFormat) : Exec jsstring :=
  let* iv := randomBytes h 16 in
  crypto (encrypt_with_iv (aes h) key iv inputField outputFormat).

(** Lines 159 to 173: the encoding and the [isBase64Url] flag, or nothing
    when no rule applies. *)
Definition detect_encoding (ivString : jsstring) : option (BufferEncoding * bool) :=
  if (length ivString =? 32)%nat && test_all is_hex_char ivString
  then Some (hex, false)
  else if ((length ivString =? 24)%nat || (length ivString =? 22)%nat)
          && test_any is_base64_punct ivString
  then Some (base64, false)
  else if (length ivString =? 22)%nat && test_all is_base64url_char ivString
  then Some (base64, true)
  else None.

(** The format a detected encoding stands for. *)
Definition detected_format (d : BufferEncoding * bool) : OutputFormat :=
  match d with
  | (hex, _) => Hex
  | (base64, false) => Base64
  | (base64, true) => Base64URL
  end.

(** Lines 175 to 190, the body of the inner [try]. *)
Definition decipher_token (a : block_cipher) (key : list byte)
    (ivString encryptedData : jsstring) (encoding : BufferEncoding)
    (isBase64Url : bool) : CryptoError + jsstring :=
  let '(iv, encryptedBuffer) :=
    if isBase64Url then
      let ivBase64 := from_base64url ivString in
      let encryptedBase64 := from_base64url encryptedData in
      (Buffer_from ivBase64 base64, Buffer_from encryptedBase64 base64)
    else (Buffer_from ivString encoding, Buffer_from encryptedData encoding) in
  match createDecipheriv key iv with
  | inl e => inl e
  | inr decipher => decipher_string a decipher encryptedBuffer
  end.

(** The decrypt branch: lines 151 to 194. *)
Definition decrypt (a : block_cipher) (key : list byte) (inputField : jsstring)
  : NodeError + jsstring :=
  if negb (includes 46 inputField) then inl InvalidFormat
  else
    let parts := split 46 inputField in
    if negb (length parts =? 2)%nat then inl InvalidFormat
    else
      let ivString := nth 0 parts [] in
      let encryptedData := nth 1 parts [] in
      match detect_encoding ivString with
      | None => inl (UndetectableEncoding (length ivString))
      | Some (encoding, isBase64Url) =>
          match decipher_token a key ivString encryptedData encoding isBase64Url with
          | inl error => inl (DecryptionFailed error)
          | inr decrypted => inr decrypted
          end
      end.

(** [obj[name] = value] on an object written as a literal (line 203): the
    own property of that name is written, or created when there is none;
    but the name [__proto__], when the object has no own property of that
    name, reaches the setter of [Object.prototype], which ignores a value
    that is no object: no property is added. *)
Definition assign_field (obj : gmap jsstring js_value) (name : jsstring)
    (value : js_value) : gmap jsstring js_value :=
  if decide (name = js "__proto__") then
    match obj !! name with
    | Some _ => <[name := value]> obj
    | None => obj
    end
  else <[name := value]> obj.

(** The body of the outer [try], lines 115 to 204, up to the push. *)
Definition process_item (h : Host) (this : IExecuteFunctions) (key : list byte)
    (items : list INodeExecutionData) (itemIndex : nat) : Exec INodeExecutionData :=
  let operation := param_operation (getNodeParameter this itemIndex) in
  let inputField := param_inputField (getNodeParameter this itemIndex) in
  let outputFieldName := param_outputFieldName (getNodeParameter this itemIndex) in
  let options := param_options (getNodeParameter this itemIndex) in
  let keepOriginal := strict_not_false (opt_keepOriginal options) in
  let outputFormat := default Hex (opt_outputFormat options) in
  let* result :=
    if decide (operation = js "encrypt") then encrypt h key inputField outputFormat
    else if decide (operation = js "decrypt")
         then pure_result (decrypt (aes h) key inputField)
         else throw (UnknownOperation operation) in
  let outputItem_json : gmap jsstring js_value :=
    if keepOriginal
    then match items !! itemIndex with Some item => json item | None => ∅ end
    else ∅ in
  ret {| json := assign_field outputItem_json outputFieldName (JString result);
         pairedItem := Some itemIndex |}.

(** The record pushed by the [catch] under [continueOnFail]. *)
Definition error_item (error : NodeError) (itemIndex : nat) : INodeExecutionData :=
  {| json := {[ js "error" := JString (error_message error) ]};
     pairedItem := Some itemIndex |}.

(** The [for] loop, lines 113 to 225; [remaining] is
    [items.length - itemIndex]. *)
Fixpoint execute_loop (h : Host) (this : IExecuteFunctions) (key : list byte)
    (items : list INodeExecutionData) (remaining itemIndex : nat)
    (returnData : list INodeExecutionData) (pos : nat)
  : Thrown + list INodeExecutionData :=
  match remaining with
  | O => inr returnData
  | S remaining' =>
      match process_item h this key items itemIndex pos with
      | (inr outputItem, pos') =>
          execute_loop h this key items remaining' (S itemIndex)
            (returnData ++ [outputItem]) pos'
      | (inl error, pos') =>
          if continueOnFail this then
            execute_loop h this key items remaining' (S itemIndex)
              (returnData ++ [error_item error itemIndex]) pos'
          else
            inl {| thrown_error := error; thrown_itemIndex := Some itemIndex |}
      end
  end.

(** [execute], lines 105 to 227. *)
Definition execute (h : Host) (this : IExecuteFunctions)
  : Thrown + list (list INodeExecutionData) :=
  let items := getInputData this in
  match env_N8N_ENCRYPTION_KEY h with
  | None => inl {| thrown_error := KeyNotSet; thrown_itemIndex := None |}
  | Some [] => inl {| thrown_error := KeyNotSet; thrown_itemIndex := None |}
  | Some encryptionKey =>
      let key := derive_key encryptionKey in
      match execute_loop h this key items (length items) 0 [] 0 with
      | inl e => inl e
      | inr returnData => inr [returnData]
      end
  end.

(** ** Notions used in the statements and proofs *)

(** The 6-bit values of a buffer, before they are turned into characters
    and padded. *)
Fixpoint base64_values_of (bs : list byte) : list Z :=
  match bs with
  | [] => []
  | [a] =>
      let x := byte_to_Z a in
      [x / 4; (x mod 4) * 16]
  | [a; b] =>
      let x := byte_to_Z a in
      let y := byte_to_Z b in
      [x / 4; (x mod 4) * 16 + y / 16; (y mod 16) * 4]
  | a :: b :: c :: r =>
      let x := byte_to_Z a in
      let y := byte_to_Z b in
      let z := byte_to_Z c in
      x / 4 :: (x mod 4) * 16 + y / 16 :: (y mod 16) * 4 + z / 64 :: z mod 64
        :: base64_values_of r
  end.

(** The number of [=] that close the base64 text of a buffer. *)
Fixpoint base64_padding (bs : list byte) : nat :=
  match bs with
  | [] => 0
  | [_] => 2
  | [_; _] => 1
  | _ :: _ :: _ :: r => base64_padding r
  end.

(** The URL-safe alphabet. *)
Definition base64url_char (v : Z) : Z :=
  if v <? 26 then 65 + v
  else if v <? 52 then 97 + (v - 26)
  else if v <? 62 then 48 + (v - 52)
  else if v =? 62 then 45
  else 95.

(** The ciphertext of a plaintext buffer: CBC over the padded input. *)
Definition cbc_encrypt (a : block_cipher) (key iv data : list byte) : list byte :=
  concat (cbc_encrypt_blocks (encrypt_block a key) iv (blocks (pkcs7_pad data))).

(** The token text for given IV and ciphertext bytes. *)
Definition token_text (outputFormat : OutputFormat) (iv ct : list byte) : jsstring :=
  match outputFormat with
  | Hex => hex_encode iv ++ [46] ++ hex_encode ct
  | Base64 => base64_encode iv ++ [46] ++ base64_encode ct
  | Base64URL =>
      to_base64url (base64_encode iv) ++ [46] ++ to_base64url (base64_encode ct)
  end.

(** [^[0-9a-f]{32}\.[0-9a-f]+$] *)
Definition matches_hex_token (s : jsstring) : bool :=
  forallb is_lower_hex_char (take 32 s)
  && (32 <? length s)%nat
  && match drop 32 s with
     | c :: rest => (c =? 46) && test_all is_lower_hex_char rest
     | [] => false
     end.

Definition is_base64_value (v : Z) : Prop := 0 <= v < 64.

(** The Unicode scalar values: the code points that are no surrogates. *)
Definition is_scalar (c : Z) : Prop :=
  0 <= c < 0xD800 \/ 0xE000 <= c < 0x110000.

Definition is_block (b : list byte) : Prop := length b = 16%nat.

Definition fresh_cipher (key iv : list byte) : Cipher :=
  {| cipher_key := key; cipher_chain := iv; cipher_held := []; cipher_decoder := [] |}.

(** The three detection rules, in the words of the specification. *)
Definition rule_hex (ivString : jsstring) : Prop :=
  length ivString = 32%nat /\ Forall (fun c => is_hex_char c = true) ivString.

Definition rule_base64 (ivString : jsstring) : Prop :=
  (length ivString = 24%nat \/ length ivString = 22%nat) /\
  Exists (fun c => c = 43 \/ c = 47 \/ c = 61) ivString.

Definition rule_base64url (ivString : jsstring) : Prop :=
  length ivString = 22%nat /\ Forall (fun c => is_base64url_char c = true) ivString.

(** The position on the random tape when the loop reaches an item. *)
Fixpoint position_at (h : Host) (this : IExecuteFunctions) (key : list byte)
    (items : list INodeExecutionData) (itemIndex : nat) : nat :=
  match itemIndex with
  | O => 0%nat
  | S i => snd (process_item h this key items i (position_at h this key items i))
  end.

(** What the body of the [try] does for an item, in the run of the loop. *)
Definition item_outcome (h : Host) (this : IExecuteFunctions) (key : list byte)
    (items : list INodeExecutionData) (itemIndex : nat)
  : NodeError + INodeExecutionData :=
  fst (process_item h this key items itemIndex (position_at h this key items itemIndex)).

(** A host and a key to run the model on. *)
Definition demo_secret : jsstring := js "0123456789abcdef0123456789abcdef".

Definition demo_host : Host :=
  {| aes := xor_cipher;
     entropy := fun n => byte_of_Z (Z.of_nat (n * 37 + 11));
     env_N8N_ENCRYPTION_KEY := Some demo_secret |}.

Definition demo_key : list byte := derive_key demo_secret.

(** A batch of three items; the second is a decrypt of a malformed token. *)
Definition demo_items : list INodeExecutionData :=
  [ {| json := {[ js "id" := JNumber 1 ]}; pairedItem := None |};
    {| json := {[ js "id" := JNumber 2 ]}; pairedItem := None |};
    {| json := {[ js "id" := JNumber 3 ]}; pairedItem := None |} ].

Definition demo_parameters (itemIndex : nat) : NodeParameters :=
  match itemIndex with
  | 1%nat =>
      {| param_operation := js "decrypt";
         param_inputField := js "abcdef";
         param_outputFieldName := js "result";
         param_options := {| opt_keepOriginal := JUndefined; opt_outputFormat := None |} |}
  | _ =>
      {| param_operation := js "encrypt";
         param_inputField := js "hello world";
         param_outputFieldName := js "result";
         param_options := {| opt_keepOriginal := JUndefined; opt_outputFormat := None |} |}
  end.

Definition demo_this : IExecuteFunctions :=
  {| getInputData := demo_items;
     getNodeParameter := demo_parameters;
     continueOnFail := true |}.

(** The record the loop pushes for an item. *)
Definition item_record (h : Host) (this : IExecuteFunctions) (key : list byte)
    (items : list INodeExecutionData) (itemIndex : nat) : INodeExecutionData :=
  match item_outcome h this key items itemIndex with
  | inr outputItem => outputItem
  | inl error => error_item error itemIndex
  end.


(** "hé€" followed by U+1F600. *)
Definition demo_text : jsstring := [104; 233; 0x20AC; 0xD83D; 0xDE00].

(** The key as the specification words it: the UTF-8 bytes of the secret,
    right-padded with the byte 0x30 to 32 bytes when shorter, cut to the
    first 32 bytes otherwise. *)
Definition derive_spec (secret : jsstring) : list byte :=
  let bytes := utf8_encode secret in
  if (length bytes <? 32)%nat
  then bytes ++ replicate (32 - length bytes) x30
  else take 32 bytes.

Definition is_ascii (c : Z) : Prop := 0 <= c < 128.

(** ** The description of the node, and notions for further properties *)

(** Lines 27 to 41: the values the 'operation' parameter offers, and its
    default. *)
Definition operation_options : list jsstring := [js "encrypt"; js "decrypt"].

Definition operation_default : jsstring := js "encrypt".

(** The output object of a processed item: lines 199 to 203. *)
Definition output_item (items : list INodeExecutionData) (itemIndex : nat)
    (p : NodeParameters) (result : jsstring) : INodeExecutionData :=
  {| json := assign_field
               (if strict_not_false (opt_keepOriginal (param_options p))
                then match items !! itemIndex with
                     | Some item => json item
                     | None => ∅
                     end
                else ∅)
               (param_outputFieldName p) (JString result);
     pairedItem := Some itemIndex |}.

(** Whether the item at an index asks for encryption. *)
Definition is_encrypt_item (this : IExecuteFunctions) (itemIndex : nat) : bool :=
  bool_decide (param_operation (getNodeParameter this itemIndex) = js "encrypt").

(** [s.toUpperCase()] on the letters of ASCII. *)
Definition toUpperCase (s : jsstring) : jsstring :=
  List.map (fun c => if is_lower c then c - 32 else c) s.

(** A code unit of a JavaScript string. *)
Definition is_code_unit (c : Z) : Prop := 0 <= c <= 0xFFFF.

(** The demonstration batch in the mode that stops at the first failure. *)
Definition demo_this_strict : IExecuteFunctions :=
  {| getInputData := demo_items;
     getNodeParameter := demo_parameters;
     continueOnFail := false |}.

(** A batch of two encrypt items. *)
Definition demo_this_encrypt : IExecuteFunctions :=
  {| getInputData := take 2 demo_items;
     getNodeParameter := fun _ => demo_parameters 0;
     continueOnFail := false |}.

(** A batch that decrypts the token of the first demonstration item. *)
Definition demo_this_decrypt : IExecuteFunctions :=
  {| getInputData := take 1 demo_items;
     getNodeParameter := fun _ =>
       {| param_operation := js "decrypt";
          param_inputField :=
            js "0b30557a9fc4e90e33587da2c7ec1136.53640b25c4d1a856790d78c5a18d7155";
          param_outputFieldName := js "plain";
          param_options := {| opt_keepOriginal := JBool false;
                              opt_outputFormat := None |} |};
     continueOnFail := false |}.


(** ** Tactics *)

(** Decide the comparisons of the goal by linear arithmetic, pruning the
    branches that are settled on the way. *)
Ltac zbool_step :=
  match goal with
  | |- context [Z.ltb ?a ?b] =>
      first [ replace (Z.ltb a b) with true by (symmetry; apply Z.ltb_lt; lia)
            | replace (Z.ltb a b) with false by (symmetry; apply Z.ltb_ge; lia) ]
  | |- context [Z.leb ?a ?b] =>
      first [ replace (Z.leb a b) with true by (symmetry; apply Z.leb_le; lia)
            | replace (Z.leb a b) with false by (symmetry; apply Z.leb_gt; lia) ]
  | |- context [Z.eqb ?a ?b] =>
      first [ replace (Z.eqb a b) with true by (symmetry; apply Z.eqb_eq; lia)
            | replace (Z.eqb a b) with false by (symmetry; apply Z.eqb_neq; lia) ]
  end.

Ltac zbool := repeat (zbool_step; cbn [andb orb negb]; cbv iota).

(** A 16-byte buffer, byte by byte. *)
Ltac sixteen_bytes iv H :=
  do 16 (destruct iv as [|? iv]; [discriminate H|]);
  destruct iv; [clear H|discriminate H].

(** * Properties *)

(** ** Bytes *)

Lemma byte_to_Z_range (b : byte) : 0 <= byte_to_Z b < 256.
Proof.
  unfold byte_to_Z. pose proof (Byte.to_N_bounded b). lia.
Qed.

Lemma byte_of_to_Z (b : byte) : byte_of_Z (byte_to_Z b) = b.
Proof.
  pose proof (byte_to_Z_range b) as Hr.
  unfold byte_of_Z. rewrite Z.mod_small by exact Hr.
  unfold byte_to_Z. rewrite N2Z.id. now rewrite Byte.of_to_N.
Qed.

Lemma byte_to_of_Z (z : Z) : 0 <= z < 256 -> byte_to_Z (byte_of_Z z) = z.
Proof.
  intros Hz. unfold byte_of_Z. rewrite Z.mod_small by exact Hz.
  destruct (Byte.of_N (Z.to_N z)) as [b|] eqn:Hb.
  - apply Byte.to_of_N in Hb. unfold byte_to_Z. rewrite Hb. lia.
  - apply Byte.of_N_None_iff in Hb. lia.
Qed.

Lemma byte_of_Z_eq (z : Z) (b : byte) : z = byte_to_Z b -> byte_of_Z z = b.
Proof. intros ->. apply byte_of_to_Z. Qed.

Lemma byte_xor_cancel (a b : byte) : byte_xor (byte_xor a b) b = a.
Proof.
  unfold byte_xor.
  destruct (Byte.to_bits a) as (a0 & a1 & a2 & a3 & a4 & a5 & a6 & a7) eqn:Ha.
  destruct (Byte.to_bits b) as (b0 & b1 & b2 & b3 & b4 & b5 & b6 & b7) eqn:Hb.
  rewrite Byte.to_bits_of_bits.
  rewrite !xorb_assoc, !xorb_nilpotent, !xorb_false_r.
  rewrite <- Ha. apply Byte.of_bits_to_bits.
Qed.

Lemma length_xor_bytes (a b : list byte) :
  length a = length b -> length (xor_bytes a b) = length a.
Proof.
  intros H. unfold xor_bytes. rewrite length_zip_with. lia.
Qed.

Lemma xor_bytes_cancel (a b : list byte) :
  length a = length b -> xor_bytes (xor_bytes a b) b = a.
Proof.
  unfold xor_bytes. revert b.
  induction a as [|x a IH]; intros [|y b] Hlen; simpl in *; try discriminate.
  - reflexivity.
  - rewrite byte_xor_cancel. f_equal. apply IH. lia.
Qed.

(** ** Lists by threes *)

Lemma list_ind3 {A} (P : list A -> Prop) :
  P [] -> (forall a, P [a]) -> (forall a b, P [a; b]) ->
  (forall a b c r, P r -> P (a :: b :: c :: r)) ->
  forall l, P l.
Proof.
  intros H0 H1 H2 H3.
  fix IH 1. intros [|a [|b [|c r]]].
  - exact H0.
  - apply H1.
  - apply H2.
  - apply H3, IH.
Qed.

(** ** Hexadecimal *)

Lemma unhex_hex_digit (d : Z) : 0 <= d < 16 -> unhex (hex_digit d) = Some d.
Proof.
  intros Hd. unfold unhex. cbv zeta.
  assert (Hm : low_byte (hex_digit d) = hex_digit d).
  { apply Z.mod_small. unfold hex_digit. destruct (d <? 10); lia. }
  rewrite Hm. unfold hex_digit, is_digit, in_range.
  destruct (d <? 10) eqn:E.
  - apply Z.ltb_lt in E.
    replace (48 <=? 48 + d) with true by (symmetry; apply Z.leb_le; lia).
    replace (48 + d <=? 57) with true by (symmetry; apply Z.leb_le; lia).
    simpl. f_equal. lia.
  - apply Z.ltb_ge in E.
    replace (87 + d <=? 57) with false by (symmetry; apply Z.leb_gt; lia).
    rewrite andb_false_r.
    replace (97 <=? 87 + d) with true by (symmetry; apply Z.leb_le; lia).
    replace (87 + d <=? 102) with true by (symmetry; apply Z.leb_le; lia).
    simpl. f_equal. lia.
Qed.

Lemma hex_digit_lower (d : Z) : 0 <= d < 16 -> is_lower_hex_char (hex_digit d) = true.
Proof.
  intros Hd. unfold is_lower_hex_char, hex_digit, is_digit, in_range.
  destruct (d <? 10) eqn:E.
  - apply Z.ltb_lt in E.
    replace (48 <=? 48 + d) with true by (symmetry; apply Z.leb_le; lia).
    replace (48 + d <=? 57) with true by (symmetry; apply Z.leb_le; lia).
    reflexivity.
  - apply Z.ltb_ge in E.
    replace (97 <=? 87 + d) with true by (symmetry; apply Z.leb_le; lia).
    replace (87 + d <=? 102) with true by (symmetry; apply Z.leb_le; lia).
    apply orb_true_r.
Qed.

Lemma byte_nibbles (b : byte) :
  0 <= byte_to_Z b / 16 < 16 /\ 0 <= byte_to_Z b mod 16 < 16.
Proof.
  pose proof (byte_to_Z_range b). split.
  - split; [apply Z.div_pos; lia | apply Z.div_lt_upper_bound; lia].
  - apply Z.mod_pos_bound. lia.
Qed.

Lemma hex_decode_encode (bs : list byte) : hex_decode (hex_encode bs) = bs.
Proof.
  induction bs as [|b bs IH]; [reflexivity|].
  destruct (byte_nibbles b) as [Hh Hl].
  cbn [hex_encode flat_map app hex_decode].
  rewrite (unhex_hex_digit _ Hh), (unhex_hex_digit _ Hl).
  fold (hex_encode bs). rewrite IH. f_equal.
  rewrite <- (byte_of_to_Z b) at 3. f_equal.
  pose proof (Z.div_mod (byte_to_Z b) 16). lia.
Qed.

Lemma length_hex_encode (bs : list byte) :
  length (hex_encode bs) = (2 * length bs)%nat.
Proof.
  induction bs as [|b bs IH]; [reflexivity|].
  cbn [hex_encode flat_map app length]. fold (hex_encode bs). lia.
Qed.

Lemma hex_encode_lower (bs : list byte) :
  forallb is_lower_hex_char (hex_encode bs) = true.
Proof.
  induction bs as [|b bs IH]; [reflexivity|].
  destruct (byte_nibbles b) as [Hh Hl].
  cbn [hex_encode flat_map app forallb]. fold (hex_encode bs).
  now rewrite (hex_digit_lower _ Hh), (hex_digit_lower _ Hl), IH.
Qed.

Lemma hex_encode_app (x y : list byte) :
  hex_encode (x ++ y) = hex_encode x ++ hex_encode y.
Proof. unfold hex_encode. apply flat_map_app. Qed.

(** ** Base64 *)

(** A decidable property of the numbers below a bound is checked by
    running through them. *)
Lemma all_below (n : nat) (P : Z -> Prop) `{forall v, Decision (P v)} :
  forallb (fun v => bool_decide (P v)) (List.map Z.of_nat (seq 0 n)) = true ->
  forall v, 0 <= v < Z.of_nat n -> P v.
Proof.
  intros Hall v Hv.
  rewrite forallb_forall in Hall.
  apply (bool_decide_unpack (P v)). apply Is_true_true, Hall.
  apply in_map_iff. exists (Z.to_nat v). split; [lia|].
  apply in_seq. lia.
Qed.

Lemma unbase64_base64_char (v : Z) :
  is_base64_value v -> unbase64 (base64_char v) = Some v.
Proof.
  revert v. apply (all_below 64 (fun v => unbase64 (base64_char v) = Some v)).
  vm_compute. reflexivity.
Qed.

Lemma base64_char_not_pad (v : Z) :
  is_base64_value v -> (low_byte (base64_char v) =? 61) = false.
Proof.
  revert v.
  apply (all_below 64 (fun v => (low_byte (base64_char v) =? 61) = false)).
  vm_compute. reflexivity.
Qed.

Lemma base64_char_not_dot (v : Z) :
  is_base64_value v -> (base64_char v =? 46) = false.
Proof.
  revert v. apply (all_below 64 (fun v => (base64_char v =? 46) = false)).
  vm_compute. reflexivity.
Qed.

(** Character by character, the three replacements of the encrypt path
    turn the standard alphabet into the URL-safe one. *)
Lemma base64url_char_spec (v : Z) :
  is_base64_value v ->
  let c := base64_char v in
  let c1 := if c =? 43 then 45 else c in
  let c2 := if c1 =? 47 then 95 else c1 in
  c2 = base64url_char v /\ (c2 =? 61) = false.
Proof.
  revert v.
  apply (all_below 64 (fun v =>
    let c := base64_char v in
    let c1 := if c =? 43 then 45 else c in
    let c2 := if c1 =? 47 then 95 else c1 in
    c2 = base64url_char v /\ (c2 =? 61) = false)).
  vm_compute. reflexivity.
Qed.

(** And the two replacements of the decrypt path turn it back. *)
Lemma base64_char_of_url (v : Z) :
  is_base64_value v ->
  let c := base64url_char v in
  let c1 := if c =? 45 then 43 else c in
  (if c1 =? 95 then 47 else c1) = base64_char v.
Proof.
  revert v.
  apply (all_below 64 (fun v =>
    let c := base64url_char v in
    let c1 := if c =? 45 then 43 else c in
    (if c1 =? 95 then 47 else c1) = base64_char v)).
  vm_compute. reflexivity.
Qed.

Lemma base64url_char_class (v : Z) :
  is_base64_value v ->
  is_base64url_char (base64url_char v) = true /\
  is_base64_punct (base64url_char v) = false /\
  (base64url_char v =? 46) = false.
Proof.
  revert v.
  apply (all_below 64 (fun v =>
    is_base64url_char (base64url_char v) = true /\
    is_base64_punct (base64url_char v) = false /\
    (base64url_char v =? 46) = false)).
  vm_compute. reflexivity.
Qed.

Lemma base64_values_of_range (bs : list byte) :
  Forall is_base64_value (base64_values_of bs).
Proof.
  unfold is_base64_value.
  induction bs as [|a|a b|a b c r IH] using list_ind3; cbn [base64_values_of].
  - apply Forall_nil_2.
  - pose proof (byte_to_Z_range a).
    repeat apply Forall_cons_2; try apply Forall_nil_2;
      Z.to_euclidean_division_equations; lia.
  - pose proof (byte_to_Z_range a). pose proof (byte_to_Z_range b).
    repeat apply Forall_cons_2; try apply Forall_nil_2;
      Z.to_euclidean_division_equations; lia.
  - pose proof (byte_to_Z_range a). pose proof (byte_to_Z_range b).
    pose proof (byte_to_Z_range c).
    do 4 (apply Forall_cons_2; [Z.to_euclidean_division_equations; lia|]).
    exact IH.
Qed.

Lemma base64_encode_values (bs : list byte) :
  base64_encode bs
  = List.map base64_char (base64_values_of bs) ++ replicate (base64_padding bs) 61.
Proof.
  induction bs as [|a|a b|a b c r IH] using list_ind3;
    cbn [base64_encode base64_values_of base64_padding List.map app replicate];
    try reflexivity.
  now rewrite IH.
Qed.

Lemma bytes_of_base64_values_of (bs : list byte) :
  bytes_of_base64_values (base64_values_of bs) = bs.
Proof.
  induction bs as [|a|a b|a b c r IH] using list_ind3;
    cbn [base64_values_of bytes_of_base64_values].
  - reflexivity.
  - pose proof (byte_to_Z_range a).
    f_equal. apply byte_of_Z_eq. Z.to_euclidean_division_equations; lia.
  - pose proof (byte_to_Z_range a). pose proof (byte_to_Z_range b).
    f_equal; [|f_equal]; apply byte_of_Z_eq;
      Z.to_euclidean_division_equations; lia.
  - pose proof (byte_to_Z_range a). pose proof (byte_to_Z_range b).
    pose proof (byte_to_Z_range c).
    rewrite IH.
    f_equal; [|f_equal; [|f_equal]]; apply byte_of_Z_eq;
      Z.to_euclidean_division_equations; lia.
Qed.

Lemma base64_values_replicate_pad (n : nat) : base64_values (replicate n 61) = [].
Proof. destruct n; reflexivity. Qed.

Lemma base64_values_chars (vs : list Z) (n : nat) :
  Forall is_base64_value vs ->
  base64_values (List.map base64_char vs ++ replicate n 61) = vs.
Proof.
  induction 1 as [|v vs Hv _ IH]; cbn [List.map app base64_values].
  - apply base64_values_replicate_pad.
  - now rewrite (base64_char_not_pad v Hv), (unbase64_base64_char v Hv), IH.
Qed.

Lemma base64_decode_encode (bs : list byte) : base64_decode (base64_encode bs) = bs.
Proof.
  unfold base64_decode.
  rewrite base64_encode_values, base64_values_chars by apply base64_values_of_range.
  apply bytes_of_base64_values_of.
Qed.

Lemma base64_encode_app (x y : list byte) :
  (length x mod 3 = 0)%nat ->
  base64_encode (x ++ y) = base64_encode x ++ base64_encode y.
Proof.
  induction x as [|a|a b|a b c r IH] using list_ind3; intros Hlen.
  - reflexivity.
  - discriminate Hlen.
  - discriminate Hlen.
  - change ((a :: b :: c :: r) ++ y) with (a :: b :: c :: (r ++ y)).
    cbn [base64_encode]. rewrite IH; [reflexivity|].
    cbn [length] in Hlen.
    replace (S (S (S (length r)))) with (length r + 1 * 3)%nat in Hlen by lia.
    now rewrite Nat.Div0.mod_add in Hlen.
Qed.

Lemma to_base64url_chars (vs : list Z) (n : nat) :
  Forall is_base64_value vs ->
  to_base64url (List.map base64_char vs ++ replicate n 61)
  = List.map base64url_char vs.
Proof.
  unfold to_base64url, remove_all, replace_all.
  induction 1 as [|v vs Hv _ IH]; cbn [List.map app List.filter].
  - induction n as [|n IHn]; [reflexivity|exact IHn].
  - destruct (base64url_char_spec v Hv) as [Hc Hne]. cbn zeta in Hc, Hne.
    rewrite Hne. cbn [negb]. now rewrite Hc, IH.
Qed.

Lemma to_base64url_encode (bs : list byte) :
  to_base64url (base64_encode bs) = List.map base64url_char (base64_values_of bs).
Proof.
  rewrite base64_encode_values.
  apply to_base64url_chars, base64_values_of_range.
Qed.

Lemma from_base64url_chars (vs : list Z) :
  Forall is_base64_value vs ->
  from_base64url (List.map base64url_char vs) = List.map base64_char vs.
Proof.
  unfold from_base64url, replace_all.
  induction 1 as [|v vs Hv _ IH]; cbn [List.map]; [reflexivity|].
  pose proof (base64_char_of_url v Hv) as Hc. cbn zeta in Hc.
  now rewrite Hc, IH.
Qed.

Lemma base64url_decode_encode (bs : list byte) :
  base64_decode (from_base64url (to_base64url (base64_encode bs))) = bs.
Proof.
  pose proof (base64_values_of_range bs) as Hr.
  rewrite to_base64url_encode, from_base64url_chars by exact Hr.
  unfold base64_decode.
  pose proof (base64_values_chars _ 0 Hr) as Hv.
  cbn [replicate] in Hv. rewrite app_nil_r in Hv. rewrite Hv.
  apply bytes_of_base64_values_of.
Qed.

(** ** UTF-8 and UTF-16 *)

Lemma utf8_decode_one (c : Z) (rest : list byte) :
  0 <= c < 0x80 ->
  utf8_decode (utf8_of_code_point c ++ rest) = c :: utf8_decode rest.
Proof.
  intros Hc. unfold utf8_of_code_point. zbool.
  cbn [app utf8_decode]. cbv zeta.
  rewrite byte_to_of_Z by lia. zbool. reflexivity.
Qed.

Lemma utf8_decode_two (c : Z) (rest : list byte) :
  0x80 <= c < 0x800 ->
  utf8_decode (utf8_of_code_point c ++ rest) = c :: utf8_decode rest.
Proof.
  intros Hc. unfold utf8_of_code_point. zbool.
  assert (H0 : 0xC2 <= 0xC0 + c / 64 <= 0xDF)
    by (Z.to_euclidean_division_equations; lia).
  assert (H1 : 0x80 <= 0x80 + c mod 64 <= 0xBF)
    by (Z.to_euclidean_division_equations; lia).
  assert (Hv : (0xC0 + c / 64 - 0xC0) * 64 + (0x80 + c mod 64 - 0x80) = c)
    by (Z.to_euclidean_division_equations; lia).
  revert H0 H1 Hv.
  generalize (0xC0 + c / 64) as z0. generalize (0x80 + c mod 64) as z1.
  intros z1 z0 H0 H1 Hv.
  cbn [app utf8_decode]. cbv zeta.
  unfold is_continuation, cont_bits, in_range.
  rewrite !byte_to_of_Z by lia. zbool. cbn [andb].
  now rewrite Hv.
Qed.

Lemma in_range_true (lo hi z : Z) : lo <= z <= hi -> in_range lo hi z = true.
Proof. intros H. unfold in_range. apply andb_true_intro. split; apply Z.leb_le; lia. Qed.

Lemma in_range_false (lo hi z : Z) : z < lo \/ hi < z -> in_range lo hi z = false.
Proof.
  intros H. unfold in_range. apply andb_false_iff. rewrite !Z.leb_gt. lia.
Qed.

Lemma is_continuation_true (lo hi z : Z) :
  0 <= z < 256 -> lo <= z <= hi -> is_continuation lo hi (byte_of_Z z) = true.
Proof.
  intros Hz H. unfold is_continuation. rewrite byte_to_of_Z by exact Hz.
  now apply in_range_true.
Qed.

Lemma cont_bits_of_Z (z : Z) : 0 <= z < 256 -> cont_bits (byte_of_Z z) = z - 0x80.
Proof. intros Hz. unfold cont_bits. now rewrite byte_to_of_Z. Qed.

(** The decoder on a well-formed sequence of three bytes. *)
Lemma utf8_decode_three_bytes (z0 z1 z2 : Z) (rest : list byte) :
  0xE0 <= z0 <= 0xEF -> 0x80 <= z1 <= 0xBF -> 0x80 <= z2 <= 0xBF ->
  (z0 = 0xE0 -> 0xA0 <= z1) -> (z0 = 0xED -> z1 <= 0x9F) ->
  utf8_decode (byte_of_Z z0 :: byte_of_Z z1 :: byte_of_Z z2 :: rest)
  = ((z0 - 0xE0) * 4096 + (z1 - 0x80) * 64 + (z2 - 0x80)) :: utf8_decode rest.
Proof.
  intros H0 H1 H2 H1a H1b.
  cbn [utf8_decode]. cbv zeta.
  rewrite (byte_to_of_Z z0) by lia.
  rewrite (proj2 (Z.ltb_ge z0 0x80)) by lia.
  rewrite (in_range_false 0xC2 0xDF z0) by lia.
  rewrite (in_range_true 0xE0 0xEF z0) by lia.
  rewrite is_continuation_true;
    [|lia|destruct (Z.eqb_spec z0 0xE0); destruct (Z.eqb_spec z0 0xED); lia].
  rewrite is_continuation_true by lia.
  now rewrite !cont_bits_of_Z by lia.
Qed.

Lemma utf8_decode_three (c : Z) (rest : list byte) :
  0x800 <= c < 0xD800 \/ 0xE000 <= c < 0x10000 ->
  utf8_decode (utf8_of_code_point c ++ rest) = c :: utf8_decode rest.
Proof.
  intros Hc. unfold utf8_of_code_point. zbool. cbn [app].
  rewrite utf8_decode_three_bytes;
    [f_equal| | | | |]; Z.to_euclidean_division_equations; lia.
Qed.

(** The decoder on a well-formed sequence of four bytes. *)
Lemma utf8_decode_four_bytes (z0 z1 z2 z3 : Z) (rest : list byte) :
  0xF0 <= z0 <= 0xF4 -> 0x80 <= z1 <= 0xBF -> 0x80 <= z2 <= 0xBF ->
  0x80 <= z3 <= 0xBF ->
  (z0 = 0xF0 -> 0x90 <= z1) -> (z0 = 0xF4 -> z1 <= 0x8F) ->
  utf8_decode (byte_of_Z z0 :: byte_of_Z z1 :: byte_of_Z z2 :: byte_of_Z z3 :: rest)
  = ((z0 - 0xF0) * 262144 + (z1 - 0x80) * 4096 + (z2 - 0x80) * 64 + (z3 - 0x80))
      :: utf8_decode rest.
Proof.
  intros H0 H1 H2 H3 H1a H1b.
  cbn [utf8_decode]. cbv zeta.
  rewrite (byte_to_of_Z z0) by lia.
  rewrite (proj2 (Z.ltb_ge z0 0x80)) by lia.
  rewrite (in_range_false 0xC2 0xDF z0) by lia.
  rewrite (in_range_false 0xE0 0xEF z0) by lia.
  rewrite (in_range_true 0xF0 0xF4 z0) by lia.
  rewrite is_continuation_true;
    [|lia|destruct (Z.eqb_spec z0 0xF0); destruct (Z.eqb_spec z0 0xF4); lia].
  rewrite !is_continuation_true by lia.
  now rewrite !cont_bits_of_Z by lia.
Qed.

Lemma utf8_decode_four (c : Z) (rest : list byte) :
  0x10000 <= c < 0x110000 ->
  utf8_decode (utf8_of_code_point c ++ rest) = c :: utf8_decode rest.
Proof.
  intros Hc. unfold utf8_of_code_point. zbool. cbn [app].
  rewrite utf8_decode_four_bytes;
    [f_equal| | | | | |]; Z.to_euclidean_division_equations; lia.
Qed.

Lemma utf8_decode_code_point (c : Z) (rest : list byte) :
  is_scalar c ->
  utf8_decode (utf8_of_code_point c ++ rest) = c :: utf8_decode rest.
Proof.
  intros Hc. unfold is_scalar in Hc.
  destruct (Z.lt_ge_cases c 0x80); [apply utf8_decode_one; lia|].
  destruct (Z.lt_ge_cases c 0x800); [apply utf8_decode_two; lia|].
  destruct (Z.lt_ge_cases c 0x10000); [apply utf8_decode_three; lia|].
  apply utf8_decode_four; lia.
Qed.

Lemma utf8_decode_code_points (cs : list Z) :
  Forall is_scalar cs -> utf8_decode (flat_map utf8_of_code_point cs) = cs.
Proof.
  induction 1 as [|c cs Hc _ IH]; [reflexivity|].
  cbn [flat_map]. now rewrite utf8_decode_code_point, IH.
Qed.

(** What a well-formed string is, one step at a time. *)
Lemma isWellFormed_step (u : Z) (r : jsstring) :
  isWellFormed (u :: r) = true ->
  (is_high_surrogate u = true /\
   exists v r', r = v :: r' /\ is_low_surrogate v = true /\ isWellFormed r' = true)
  \/ (is_high_surrogate u = false /\ is_low_surrogate u = false /\
      0 <= u <= 0xFFFF /\ isWellFormed r = true).
Proof.
  cbn [isWellFormed]. destruct (is_high_surrogate u) eqn:Hh.
  - destruct r as [|v r']; [discriminate|].
    intros [Hv Hr]%andb_prop. left. split; [reflexivity|]. now exists v, r'.
  - intros [[Hl Hu]%andb_prop Hr]%andb_prop. right.
    apply negb_true_iff in Hl. unfold in_range in Hu.
    apply andb_prop in Hu as [?%Z.leb_le ?%Z.leb_le]. auto.
Qed.

Lemma surrogate_pair_scalar (u v : Z) :
  is_high_surrogate u = true -> is_low_surrogate v = true ->
  0x10000 <= 0x10000 + (u - 0xD800) * 0x400 + (v - 0xDC00) < 0x110000.
Proof.
  unfold is_high_surrogate, is_low_surrogate, in_range.
  intros [?%Z.leb_le ?%Z.leb_le]%andb_prop [?%Z.leb_le ?%Z.leb_le]%andb_prop.
  lia.
Qed.

Lemma utf16_of_surrogate_pair (u v : Z) :
  is_high_surrogate u = true -> is_low_surrogate v = true ->
  utf16_of_code_point (0x10000 + (u - 0xD800) * 0x400 + (v - 0xDC00)) = [u; v].
Proof.
  intros Hu Hv. pose proof (surrogate_pair_scalar u v Hu Hv).
  unfold is_high_surrogate, is_low_surrogate, in_range in Hu, Hv.
  apply andb_prop in Hu as [?%Z.leb_le ?%Z.leb_le].
  apply andb_prop in Hv as [?%Z.leb_le ?%Z.leb_le].
  unfold utf16_of_code_point. zbool.
  f_equal; [|f_equal]; Z.to_euclidean_division_equations; lia.
Qed.

Lemma not_surrogate_scalar (u : Z) :
  is_high_surrogate u = false -> is_low_surrogate u = false -> 0 <= u <= 0xFFFF ->
  is_scalar u.
Proof.
  unfold is_high_surrogate, is_low_surrogate, in_range, is_scalar.
  intros Hh Hl Hu.
  apply andb_false_iff in Hh. apply andb_false_iff in Hl.
  rewrite !Z.leb_gt in Hh, Hl. lia.
Qed.

Lemma code_points_well_formed (s : jsstring) :
  isWellFormed s = true ->
  Forall is_scalar (code_points s) /\
  flat_map utf16_of_code_point (code_points s) = s.
Proof.
  remember (length s) as n eqn:Hn.
  revert s Hn. induction n as [n IH] using lt_wf_ind. intros s Hn Hwf.
  destruct s as [|u r]; [split; [constructor|reflexivity]|].
  destruct (isWellFormed_step u r Hwf)
    as [(Hh & v & r' & -> & Hv & Hr)|(Hh & Hl & Hu & Hr)].
  - cbn [code_points]. rewrite Hh, Hv.
    destruct (IH (length r')) with (s := r') as [IH1 IH2];
      [cbn [length] in Hn; lia|reflexivity|exact Hr|].
    split.
    + constructor; [|exact IH1].
      pose proof (surrogate_pair_scalar u v Hh Hv). unfold is_scalar. lia.
    + cbn [flat_map]. now rewrite utf16_of_surrogate_pair, IH2.
  - cbn [code_points]. rewrite Hh, Hl.
    destruct (IH (length r)) with (s := r) as [IH1 IH2];
      [cbn [length] in Hn; lia|reflexivity|exact Hr|].
    split.
    + constructor; [|exact IH1]. now apply not_surrogate_scalar.
    + cbn [flat_map]. rewrite IH2. unfold utf16_of_code_point. zbool. reflexivity.
Qed.

(** Unicode text survives the trip through UTF-8. *)
Lemma utf8_decode_encode (s : jsstring) :
  isWellFormed s = true -> utf8_decode_string (utf8_encode s) = s.
Proof.
  intros Hwf. destruct (code_points_well_formed s Hwf) as [Hs Heq].
  unfold utf8_decode_string, utf8_encode.
  now rewrite utf8_decode_code_points.
Qed.

(** ** Blocks *)

Lemma blocks_of_enough (f1 f2 : nat) (l : list byte) :
  (length l <= f1)%nat -> (length l <= f2)%nat -> blocks_of f1 l = blocks_of f2 l.
Proof.
  revert f2 l. induction f1 as [|f1 IH]; intros f2 l H1 H2.
  - destruct l; [|cbn [length] in H1; lia]. now destruct f2.
  - destruct l as [|x l]; [now destruct f2|].
    destruct f2 as [|f2]; [cbn [length] in H2; lia|].
    cbn [blocks_of]. f_equal.
    apply IH; rewrite length_drop; cbn [length] in *; lia.
Qed.

Lemma blocks_cons (x : byte) (l : list byte) :
  blocks (x :: l) = take 16 (x :: l) :: blocks (drop 16 (x :: l)).
Proof.
  unfold blocks at 1. cbn [length blocks_of]. f_equal.
  apply blocks_of_enough; rewrite ?length_drop; cbn [length]; lia.
Qed.

Lemma blocks_app (x y : list byte) : is_block x -> blocks (x ++ y) = x :: blocks y.
Proof.
  intros Hx. unfold is_block in Hx.
  destruct x as [|x0 x]; [discriminate|].
  change ((x0 :: x) ++ y) with (x0 :: (x ++ y)). rewrite blocks_cons.
  change (x0 :: (x ++ y)) with ((x0 :: x) ++ y).
  rewrite take_app_length' by (symmetry; exact Hx).
  now rewrite drop_app_length' by (symmetry; exact Hx).
Qed.

Lemma blocks_concat_app (bs : list (list byte)) (y : list byte) :
  Forall is_block bs -> blocks (concat bs ++ y) = bs ++ blocks y.
Proof.
  induction 1 as [|b bs Hb _ IH]; [reflexivity|].
  cbn [concat]. rewrite <- app_assoc, blocks_app by exact Hb.
  now rewrite IH.
Qed.

Lemma blocks_concat (bs : list (list byte)) :
  Forall is_block bs -> blocks (concat bs) = bs.
Proof.
  intros H. pose proof (blocks_concat_app bs [] H) as Heq.
  now rewrite !app_nil_r in Heq.
Qed.

Lemma blocks_spec (l : list byte) :
  concat (blocks l) = l /\
  ((length l mod 16 = 0)%nat -> Forall is_block (blocks l)).
Proof.
  remember (length l) as n eqn:Hn. revert l Hn.
  induction n as [n IH] using lt_wf_ind. intros l Hn.
  destruct l as [|x l]; [split; [reflexivity|constructor]|].
  rewrite blocks_cons.
  destruct (IH (length (drop 16 (x :: l)))) with (l := drop 16 (x :: l))
    as [IH1 IH2]; [rewrite length_drop; subst n; cbn [length]; lia|reflexivity|].
  split.
  - cbn [concat]. rewrite IH1. apply take_drop.
  - intros Hmod. subst n.
    assert (Hge : (16 <= length (x :: l))%nat).
    { destruct (Nat.lt_ge_cases (length (x :: l)) 16) as [Hlt|]; [|assumption].
      rewrite Nat.mod_small in Hmod by exact Hlt. cbn [length] in Hmod. lia. }
    constructor.
    + unfold is_block. rewrite length_take. lia.
    + apply IH2. rewrite length_drop.
      replace (length (x :: l)) with ((length (x :: l) - 16) + 1 * 16)%nat in Hmod
        by lia.
      now rewrite Nat.Div0.mod_add in Hmod.
Qed.

Lemma concat_blocks (l : list byte) : concat (blocks l) = l.
Proof. apply blocks_spec. Qed.

Lemma blocks_is_block (l : list byte) :
  (length l mod 16 = 0)%nat -> Forall is_block (blocks l).
Proof. apply blocks_spec. Qed.

Lemma blocks_app_whole (x y : list byte) :
  (length x mod 16 = 0)%nat -> blocks (x ++ y) = blocks x ++ blocks y.
Proof.
  intros Hx. rewrite <- (concat_blocks x) at 1.
  apply blocks_concat_app, blocks_is_block, Hx.
Qed.

Lemma length_concat_blocks (bs : list (list byte)) :
  Forall is_block bs -> length (concat bs) = (16 * length bs)%nat.
Proof.
  induction 1 as [|b bs Hb _ IH]; [reflexivity|].
  cbn [concat length]. rewrite length_app, IH. unfold is_block in Hb. lia.
Qed.

(** ** Padding *)

Lemma pad_count (n : nat) : (1 <= 16 - n mod 16 <= 16)%nat.
Proof. pose proof (Nat.mod_upper_bound n 16). lia. Qed.

Lemma length_pkcs7_pad (data : list byte) :
  length (pkcs7_pad data) = (length data + (16 - length data mod 16))%nat.
Proof. unfold pkcs7_pad. now rewrite length_app, length_replicate. Qed.

Lemma pkcs7_pad_whole (data : list byte) :
  (length (pkcs7_pad data) mod 16 = 0)%nat /\ (0 < length (pkcs7_pad data))%nat.
Proof.
  rewrite length_pkcs7_pad. pose proof (pad_count (length data)).
  split; [|lia].
  rewrite (Nat.div_mod_eq (length data) 16) at 1.
  replace (16 * (length data / 16) + length data mod 16 + (16 - length data mod 16))%nat
    with (0 + (length data / 16 + 1) * 16)%nat by lia.
  now rewrite Nat.Div0.mod_add.
Qed.

Lemma pkcs7_pad_app (x y : list byte) :
  (length x mod 16 = 0)%nat -> pkcs7_pad (x ++ y) = x ++ pkcs7_pad y.
Proof.
  intros Hx. unfold pkcs7_pad. rewrite length_app, <- app_assoc.
  replace ((length x + length y) mod 16)%nat with (length y mod 16)%nat;
    [reflexivity|].
  rewrite Nat.Div0.add_mod, Hx, Nat.add_0_l. now rewrite Nat.Div0.mod_mod.
Qed.

Lemma pkcs7_unpad_pad (data : list byte) : pkcs7_unpad (pkcs7_pad data) = inr data.
Proof.
  pose proof (pad_count (length data)) as Hn.
  unfold pkcs7_unpad. rewrite length_pkcs7_pad. unfold pkcs7_pad.
  set (n := (16 - length data mod 16)%nat) in *.
  assert (Hlast : List.last (data ++ replicate n (byte_of_Z (Z.of_nat n))) x00
                  = byte_of_Z (Z.of_nat n)).
  { destruct n as [|m]; [lia|].
    rewrite replicate_S_end, app_assoc. apply last_last. }
  rewrite Hlast, byte_to_of_Z by lia. rewrite Nat2Z.id.
  replace (n =? 0)%nat with false by (symmetry; apply Nat.eqb_neq; lia).
  replace (16 <? n)%nat with false by (symmetry; apply Nat.ltb_ge; lia).
  cbn [orb].
  replace (length data + n - n)%nat with (length data) by lia.
  rewrite drop_app_length, take_app_length.
  replace (forallb _ _) with true; [reflexivity|].
  symmetry. apply forallb_forall. intros b Hb.
  apply list_elem_of_In, elem_of_replicate in Hb as [-> _].
  rewrite byte_to_of_Z by lia. apply Z.eqb_refl.
Qed.

(** ** Chaining *)

Lemma last_cons_default {A} (c d : A) (l : list A) :
  List.last (c :: l) d = List.last l c.
Proof.
  revert c d. induction l as [|x l IH]; intros c d; [reflexivity|].
  change (List.last (c :: x :: l) d) with (List.last (x :: l) d).
  now rewrite (IH x d), (IH x c).
Qed.

Lemma cbc_encrypt_blocks_app (E : list byte -> list byte) (chain : list byte)
    (bx bz : list (list byte)) :
  cbc_encrypt_blocks E chain (bx ++ bz)
  = cbc_encrypt_blocks E chain bx
    ++ cbc_encrypt_blocks E (List.last (cbc_encrypt_blocks E chain bx) chain) bz.
Proof.
  revert chain. induction bx as [|b bx IH]; intros chain; [reflexivity|].
  cbn [app cbc_encrypt_blocks]. rewrite IH. now rewrite last_cons_default.
Qed.

Lemma length_cbc_encrypt_blocks (E : list byte -> list byte) (chain : list byte)
    (bs : list (list byte)) :
  length (cbc_encrypt_blocks E chain bs) = length bs.
Proof.
  revert chain. induction bs as [|b bs IH]; intros chain; [reflexivity|].
  cbn [cbc_encrypt_blocks length]. now rewrite IH.
Qed.

Section Chaining.
Variables E D : list byte -> list byte.
Hypothesis E_block : forall b, is_block b -> is_block (E b).
Hypothesis D_E : forall b, is_block b -> D (E b) = b.

Lemma cbc_encrypt_blocks_is_block (chain : list byte) (bs : list (list byte)) :
  is_block chain -> Forall is_block bs ->
  Forall is_block (cbc_encrypt_blocks E chain bs).
Proof.
  intros Hc Hbs. revert chain Hc.
  induction Hbs as [|b bs Hb _ IH]; intros chain Hc; [constructor|].
  assert (Hx : is_block (xor_bytes b chain)).
  { unfold is_block in *. rewrite length_xor_bytes; congruence. }
  cbn [cbc_encrypt_blocks]. constructor; [now apply E_block|].
  apply IH. now apply E_block.
Qed.

Lemma cbc_decrypt_encrypt_blocks (chain : list byte) (bs : list (list byte)) :
  is_block chain -> Forall is_block bs ->
  cbc_decrypt_blocks D chain (cbc_encrypt_blocks E chain bs) = bs.
Proof.
  intros Hc Hbs. revert chain Hc.
  induction Hbs as [|b bs Hb _ IH]; intros chain Hc; [reflexivity|].
  assert (Hx : is_block (xor_bytes b chain)).
  { unfold is_block in *. rewrite length_xor_bytes; congruence. }
  cbn [cbc_encrypt_blocks cbc_decrypt_blocks].
  rewrite D_E by exact Hx.
  rewrite xor_bytes_cancel by (unfold is_block in *; congruence).
  f_equal. apply IH. now apply E_block.
Qed.
End Chaining.

(** ** The cipher object and its string decoder *)

Lemma whole_blocks_prefix (data : list byte) :
  let n := (length data / 16 * 16)%nat in
  (length (take n data) mod 16 = 0)%nat.
Proof.
  cbv zeta. rewrite length_take.
  pose proof (Nat.Div0.mul_div_le (length data) 16).
  replace (Nat.min (length data / 16 * 16) (length data))
    with (length data / 16 * 16)%nat by lia.
  apply Nat.Div0.mod_mul.
Qed.

(** [update] followed by [final] gives the CBC encryption of the padded
    input. *)
Lemma cipher_update_final (a : block_cipher) (key iv data : list byte) :
  fst (cipher_update a (fresh_cipher key iv) data)
    ++ cipher_final a (snd (cipher_update a (fresh_cipher key iv) data))
  = cbc_encrypt a key iv data.
Proof.
  pose proof (whole_blocks_prefix data) as Hn. cbv zeta in Hn.
  unfold cipher_update, cipher_final, cbc_encrypt, fresh_cipher.
  cbn [fst snd cipher_key cipher_chain cipher_held app].
  set (n := (length data / 16 * 16)%nat) in *.
  assert (Hpad : pkcs7_pad data = take n data ++ pkcs7_pad (drop n data)).
  { rewrite <- pkcs7_pad_app by exact Hn. now rewrite take_drop. }
  rewrite Hpad, blocks_app_whole, cbc_encrypt_blocks_app by exact Hn.
  now rewrite concat_app.
Qed.

Lemma Buffer_toString_app (encoding : BufferEncoding) (x y : list byte) :
  decoder_held encoding (length x) = 0%nat ->
  Buffer_toString encoding (x ++ y)
  = Buffer_toString encoding x ++ Buffer_toString encoding y.
Proof.
  destruct encoding; cbn [decoder_held Buffer_toString]; intros Hx.
  - apply hex_encode_app.
  - now apply base64_encode_app.
Qed.

Lemma decoder_held_prefix (encoding : BufferEncoding) (all : list byte) :
  decoder_held encoding
    (length (take (length all - decoder_held encoding (length all)) all)) = 0%nat.
Proof.
  rewrite length_take. destruct encoding; cbn [decoder_held]; [reflexivity|].
  pose proof (Nat.Div0.mod_le (length all) 3).
  replace (Nat.min (length all - length all mod 3) (length all))
    with (length all - length all mod 3)%nat by lia.
  rewrite (Nat.div_mod_eq (length all) 3) at 1.
  replace (3 * (length all / 3) + length all mod 3 - length all mod 3)%nat
    with (length all / 3 * 3)%nat by lia.
  apply Nat.Div0.mod_mul.
Qed.

(** What a decoder has written and what it holds make up the text of all
    the bytes it was given. *)
Lemma decoder_write_spec (encoding : BufferEncoding) (held buf rest : list byte) :
  fst (decoder_write encoding held buf)
    ++ Buffer_toString encoding (snd (decoder_write encoding held buf) ++ rest)
  = Buffer_toString encoding (held ++ buf ++ rest).
Proof.
  unfold decoder_write. cbn [fst snd].
  rewrite <- Buffer_toString_app by apply decoder_held_prefix.
  now rewrite app_assoc, take_drop, <- app_assoc.
Qed.

Lemma decoder_end_spec (encoding : BufferEncoding) (held buf : list byte) :
  decoder_end encoding held buf = Buffer_toString encoding (held ++ buf).
Proof.
  pose proof (decoder_write_spec encoding held buf []) as H.
  rewrite !app_nil_r in H. unfold decoder_end.
  now destruct (decoder_write encoding held buf).
Qed.

(** [cipher.update(s, 'utf8', enc) + cipher.final(enc)] is the text of the
    whole ciphertext. *)
Lemma cipher_string_update_final (a : block_cipher) (key iv : list byte)
    (data : jsstring) (encoding : BufferEncoding) :
  fst (cipher_update_string a (fresh_cipher key iv) data encoding)
    ++ cipher_final_string a
         (snd (cipher_update_string a (fresh_cipher key iv) data encoding)) encoding
  = Buffer_toString encoding (cbc_encrypt a key iv (utf8_encode data)).
Proof.
  rewrite <- cipher_update_final.
  unfold cipher_update_string, cipher_final_string.
  destruct (cipher_update a (fresh_cipher key iv) (utf8_encode data)) as [out c'] eqn:Hup.
  assert (Hdec : cipher_decoder c' = []).
  { unfold cipher_update in Hup. now injection Hup as _ <-. }
  rewrite Hdec.
  pose proof (decoder_write_spec encoding [] out (cipher_final a c')) as Hw.
  destruct (decoder_write encoding [] out) as [s held].
  cbn [fst snd app] in *. rewrite decoder_end_spec.
  unfold cipher_final in *. cbn [cipher_key cipher_chain cipher_held]. exact Hw.
Qed.

Lemma createCipheriv_ok (key iv : list byte) :
  length key = 32%nat -> length iv = 16%nat ->
  createCipheriv key iv = inr (fresh_cipher key iv).
Proof. intros Hk Hi. unfold createCipheriv. now rewrite Hk, Hi. Qed.

(** The token the encrypt path builds. *)
Lemma encrypt_with_iv_token (a : block_cipher) (key iv : list byte)
    (inputField : jsstring) (outputFormat : OutputFormat) :
  length key = 32%nat -> length iv = 16%nat ->
  encrypt_with_iv a key iv inputField outputFormat
  = inr (token_text outputFormat iv (cbc_encrypt a key iv (utf8_encode inputField))).
Proof.
  intros Hk Hi. unfold encrypt_with_iv. rewrite createCipheriv_ok by assumption.
  destruct outputFormat; cbn [as_BufferEncoding token_text].
  - pose proof (cipher_string_update_final a key iv inputField hex) as H.
    destruct (cipher_update_string a (fresh_cipher key iv) inputField hex).
    cbn [fst snd Buffer_toString] in *. now rewrite H.
  - pose proof (cipher_string_update_final a key iv inputField base64) as H.
    destruct (cipher_update_string a (fresh_cipher key iv) inputField base64).
    cbn [fst snd Buffer_toString] in *. now rewrite H.
  - pose proof (cipher_update_final a key iv (utf8_encode inputField)) as H.
    destruct (cipher_update a (fresh_cipher key iv) (utf8_encode inputField)).
    cbn [fst snd] in *. now rewrite H.
Qed.

(** ** Splitting a token *)

Lemma includes_app (c : Z) (x y : jsstring) :
  includes c (x ++ y) = includes c x || includes c y.
Proof. apply existsb_app. Qed.

Lemma includes_class (cls : Z -> bool) (c : Z) (s : jsstring) :
  cls c = false -> forallb cls s = true -> includes c s = false.
Proof.
  intros Hc. induction s as [|x s IH]; [reflexivity|].
  cbn [forallb includes existsb]. intros [Hx Hs]%andb_prop.
  fold (includes c s). rewrite (IH Hs), orb_false_r.
  apply Z.eqb_neq. intros ->. congruence.
Qed.

Lemma split_without (sep : Z) (s : jsstring) :
  includes sep s = false -> split sep s = [s].
Proof.
  induction s as [|c s IH]; [reflexivity|].
  cbn [includes existsb split]. fold (includes sep s).
  intros [Hc Hs]%orb_false_elim.
  rewrite Z.eqb_sym, Hc. now rewrite (IH Hs).
Qed.

Lemma split_two (sep : Z) (x y : jsstring) :
  includes sep x = false -> includes sep y = false ->
  split sep (x ++ sep :: y) = [x; y].
Proof.
  intros Hx Hy. induction x as [|c x IH].
  - cbn [app split]. now rewrite Z.eqb_refl, split_without.
  - cbn [includes existsb] in Hx. fold (includes sep x) in Hx.
    apply orb_false_elim in Hx as [Hc Hx].
    cbn [app split]. rewrite Z.eqb_sym, Hc. now rewrite (IH Hx).
Qed.

Lemma includes_middle (sep : Z) (x y : jsstring) : includes sep (x ++ sep :: y) = true.
Proof.
  rewrite includes_app. cbn [includes existsb].
  rewrite Z.eqb_refl. apply orb_true_r.
Qed.

(** The number of segments is one more than the number of separators. *)
Lemma length_split (sep : Z) (s : jsstring) :
  length (split sep s) = S (length (List.filter (Z.eqb sep) s)).
Proof.
  induction s as [|c s IH]; [reflexivity|].
  cbn [split List.filter]. rewrite (Z.eqb_sym sep c).
  destruct (c =? sep).
  - cbn [length]. now rewrite IH.
  - destruct (split sep s) as [|seg segs]; [discriminate IH|exact IH].
Qed.

Lemma includes_hex_encode (bs : list byte) : includes 46 (hex_encode bs) = false.
Proof. apply (includes_class is_lower_hex_char); [reflexivity|apply hex_encode_lower]. Qed.

Lemma includes_base64_chars (vs : list Z) (n : nat) :
  Forall is_base64_value vs ->
  includes 46 (List.map base64_char vs ++ replicate n 61) = false.
Proof.
  intros Hvs. rewrite includes_app. apply orb_false_intro.
  - induction Hvs as [|v vs Hv _ IH]; [reflexivity|].
    cbn [List.map includes existsb]. fold (includes 46 (List.map base64_char vs)).
    rewrite IH, orb_false_r, Z.eqb_sym. now apply base64_char_not_dot.
  - induction n as [|n IH]; [reflexivity|exact IH].
Qed.

Lemma includes_base64_encode (bs : list byte) : includes 46 (base64_encode bs) = false.
Proof.
  rewrite base64_encode_values.
  apply includes_base64_chars, base64_values_of_range.
Qed.

Lemma base64url_chars_class (vs : list Z) :
  Forall is_base64_value vs ->
  forallb is_base64url_char (List.map base64url_char vs) = true /\
  test_any is_base64_punct (List.map base64url_char vs) = false.
Proof.
  unfold test_any.
  induction 1 as [|v vs Hv _ [IH1 IH2]]; [split; reflexivity|].
  destruct (base64url_char_class v Hv) as (Hc & Hp & _).
  cbn [List.map forallb existsb]. now rewrite Hc, Hp, IH1, IH2.
Qed.

Lemma includes_base64url_encode (bs : list byte) :
  includes 46 (to_base64url (base64_encode bs)) = false.
Proof.
  rewrite to_base64url_encode.
  apply (includes_class is_base64url_char); [reflexivity|].
  apply base64url_chars_class, base64_values_of_range.
Qed.

(** The two segments of a token never hold a period. *)
Lemma token_text_parts (outputFormat : OutputFormat) (iv ct : list byte) :
  exists ivString encrypted,
    token_text outputFormat iv ct = ivString ++ 46 :: encrypted /\
    includes 46 ivString = false /\ includes 46 encrypted = false.
Proof.
  destruct outputFormat; cbn [token_text app]; eexists _, _;
    (split; [reflexivity|split]);
    auto using includes_hex_encode, includes_base64_encode, includes_base64url_encode.
Qed.

(** ** Detection on the IV text of a token *)

Lemma is_lower_hex_is_hex (s : jsstring) :
  forallb is_lower_hex_char s = true -> forallb is_hex_char s = true.
Proof.
  induction s as [|c s IH]; [reflexivity|].
  cbn [forallb]. intros [Hc Hs]%andb_prop. rewrite (IH Hs), andb_true_r.
  unfold is_hex_char. unfold is_lower_hex_char in Hc. now rewrite Hc.
Qed.

Lemma detect_hex_iv (iv : list byte) :
  length iv = 16%nat -> detect_encoding (hex_encode iv) = Some (hex, false).
Proof.
  intros Hi. unfold detect_encoding, test_all.
  rewrite (is_lower_hex_is_hex _ (hex_encode_lower iv)).
  now rewrite length_hex_encode, Hi.
Qed.

Lemma length_base64_iv (iv : list byte) :
  length iv = 16%nat ->
  length (base64_values_of iv) = 22%nat /\ base64_padding iv = 2%nat.
Proof. intros Hi. sixteen_bytes iv Hi. split; reflexivity. Qed.

Lemma detect_base64_iv (iv : list byte) :
  length iv = 16%nat -> detect_encoding (base64_encode iv) = Some (base64, false).
Proof.
  intros Hi. destruct (length_base64_iv iv Hi) as [Hv Hp].
  unfold detect_encoding.
  assert (Hlen : length (base64_encode iv) = 24%nat).
  { now rewrite base64_encode_values, length_app, length_map, length_replicate, Hv, Hp. }
  rewrite Hlen. cbn [Nat.eqb andb orb].
  replace (test_any is_base64_punct (base64_encode iv)) with true; [reflexivity|].
  symmetry. apply existsb_exists. exists 61. split; [|reflexivity].
  rewrite base64_encode_values, Hp. apply in_or_app. right. now left.
Qed.

Lemma detect_base64url_iv (iv : list byte) :
  length iv = 16%nat ->
  detect_encoding (to_base64url (base64_encode iv)) = Some (base64, true).
Proof.
  intros Hi. destruct (length_base64_iv iv Hi) as [Hv _].
  destruct (base64url_chars_class _ (base64_values_of_range iv)) as [Hc Hp].
  rewrite to_base64url_encode. unfold detect_encoding, test_all.
  now rewrite length_map, Hv, Hp, Hc.
Qed.

(** ** Deciphering what was enciphered *)

Lemma xor_cipher_ok : block_cipher_ok xor_cipher.
Proof.
  intros key block Hk Hb. cbn [xor_cipher encrypt_block decrypt_block].
  assert (Hlen : length block = length (take 16 key))
    by (rewrite length_take; lia).
  split.
  - rewrite length_xor_bytes; assumption.
  - now apply xor_bytes_cancel.
Qed.

Section Decipher.
Variable a : block_cipher.
Hypothesis a_ok : block_cipher_ok a.
Variables key iv : list byte.
Hypothesis key_length : length key = 32%nat.
Hypothesis iv_length : length iv = 16%nat.

Lemma cbc_encrypt_blocks_ok (data : list byte) :
  Forall is_block
    (cbc_encrypt_blocks (encrypt_block a key) iv (blocks (pkcs7_pad data))).
Proof.
  apply cbc_encrypt_blocks_is_block.
  - intros b Hb. now apply a_ok.
  - exact iv_length.
  - apply blocks_is_block, pkcs7_pad_whole.
Qed.

Lemma length_cbc_encrypt (data : list byte) :
  length (cbc_encrypt a key iv data) = length (pkcs7_pad data).
Proof.
  unfold cbc_encrypt.
  rewrite length_concat_blocks by apply cbc_encrypt_blocks_ok.
  rewrite length_cbc_encrypt_blocks.
  rewrite <- length_concat_blocks by apply blocks_is_block, pkcs7_pad_whole.
  now rewrite concat_blocks.
Qed.

Lemma decipher_bytes_cbc_encrypt (data : list byte) :
  decipher_bytes a {| decipher_key := key; decipher_iv := iv |}
    (cbc_encrypt a key iv data) = inr data.
Proof.
  destruct (pkcs7_pad_whole data) as [Hmod Hpos].
  unfold decipher_bytes. rewrite length_cbc_encrypt, Hmod.
  replace (length (pkcs7_pad data) =? 0)%nat with false
    by (symmetry; apply Nat.eqb_neq; lia).
  cbn [orb negb Nat.eqb decipher_key decipher_iv].
  unfold cbc_encrypt. rewrite blocks_concat by apply cbc_encrypt_blocks_ok.
  rewrite cbc_decrypt_encrypt_blocks.
  - rewrite concat_blocks. apply pkcs7_unpad_pad.
  - intros b Hb. now apply a_ok.
  - intros b Hb. now apply a_ok.
  - exact iv_length.
  - now apply blocks_is_block.
Qed.

Lemma createDecipheriv_ok :
  createDecipheriv key iv = inr {| decipher_key := key; decipher_iv := iv |}.
Proof. unfold createDecipheriv. now rewrite key_length, iv_length. Qed.

(** Decrypting the token text of a ciphertext gives the plaintext back. *)
Lemma decrypt_token_text (outputFormat : OutputFormat) (inputField : jsstring) :
  isWellFormed inputField = true ->
  decrypt a key (token_text outputFormat iv (cbc_encrypt a key iv (utf8_encode inputField)))
  = inr inputField.
Proof.
  intros Hwf. unfold decrypt.
  destruct outputFormat; cbn [token_text app];
    rewrite includes_middle, split_two
      by auto using includes_hex_encode, includes_base64_encode,
                    includes_base64url_encode;
    cbn [negb length Nat.eqb nth].
  - rewrite detect_hex_iv by exact iv_length.
    unfold decipher_token. cbn [Buffer_from].
    rewrite !hex_decode_encode, createDecipheriv_ok.
    unfold decipher_string.
    now rewrite decipher_bytes_cbc_encrypt, utf8_decode_encode.
  - rewrite detect_base64_iv by exact iv_length.
    unfold decipher_token. cbn [Buffer_from].
    rewrite !base64_decode_encode, createDecipheriv_ok.
    unfold decipher_string.
    now rewrite decipher_bytes_cbc_encrypt, utf8_decode_encode.
  - rewrite detect_base64url_iv by exact iv_length.
    unfold decipher_token. cbn [Buffer_from].
    rewrite !base64url_decode_encode, createDecipheriv_ok.
    unfold decipher_string.
    now rewrite decipher_bytes_cbc_encrypt, utf8_decode_encode.
Qed.
End Decipher.

(** ** The round trip *)

(** C1. Round trip: for every plaintext that is Unicode text (the empty
    string, ASCII and multi-byte characters alike), every 32-byte key and
    each of the three formats, encryption succeeds for any 16-byte IV, and
    with the IV the encrypt path draws itself, and decrypting the token with
    the same key gives the plaintext back. *)
Theorem roundtrip (h : Host) (key : list byte) (P : jsstring) (F : OutputFormat)
    (pos : nat) :
  block_cipher_ok (aes h) -> length key = 32%nat -> isWellFormed P = true ->
  (forall iv, length iv = 16%nat ->
     exists token, encrypt_with_iv (aes h) key iv P F = inr token /\
                   decrypt (aes h) key token = inr P) /\
  (exists token, fst (encrypt h key P F pos) = inr token /\
                 decrypt (aes h) key token = inr P).
Proof.
  intros Hok Hk Hwf.
  assert (Hiv : forall iv, length iv = 16%nat ->
     exists token, encrypt_with_iv (aes h) key iv P F = inr token /\
                   decrypt (aes h) key token = inr P).
  { intros iv Hi. eexists. split; [now apply encrypt_with_iv_token|].
    now apply decrypt_token_text. }
  split; [exact Hiv|].
  unfold encrypt, bind, randomBytes.
  destruct (Hiv (List.map (entropy h) (seq pos 16))) as (token & Htok & Hdec).
  { now rewrite length_map, length_seq. }
  exists token. rewrite Htok. now split.
Qed.

Lemma roundtrip_witness :
  (forall iv, length iv = 16%nat ->
     exists token, encrypt_with_iv (aes demo_host) demo_key iv demo_text Base64URL
                   = inr token /\
                   decrypt (aes demo_host) demo_key token = inr demo_text) /\
  (exists token, fst (encrypt demo_host demo_key demo_text Base64URL 0%nat) = inr token /\
                 decrypt (aes demo_host) demo_key token = inr demo_text).
Proof.
  apply roundtrip; [apply xor_cipher_ok | reflexivity | reflexivity].
Defined.

(** ** Key derivation *)

Lemma utf8_encode_ascii (s : jsstring) :
  Forall is_ascii s -> utf8_encode s = List.map byte_of_Z s.
Proof.
  unfold utf8_encode, is_ascii.
  induction 1 as [|c s Hc _ IH]; [reflexivity|].
  cbn [code_points List.map].
  unfold is_high_surrogate, is_low_surrogate.
  rewrite (in_range_false 0xD800 0xDBFF c), (in_range_false 0xDC00 0xDFFF c) by lia.
  cbn [flat_map]. rewrite IH. unfold utf8_of_code_point.
  now rewrite (proj2 (Z.ltb_lt c 0x80)) by lia.
Qed.

Lemma map_replicate {A B} (f : A -> B) (n : nat) (x : A) :
  List.map f (replicate n x) = replicate n (f x).
Proof. induction n as [|n IH]; [reflexivity|]. cbn [replicate List.map]. now rewrite IH. Qed.

(** On secrets made of ASCII characters the code derives the key the
    specification describes. *)
Lemma derive_key_ascii (secret : jsstring) :
  Forall is_ascii secret ->
  derive_key secret = derive_spec secret /\ length (derive_key secret) = 32%nat.
Proof.
  intros Hs.
  assert (Hpad : Forall is_ascii (slice0 32 (padEnd 32 48 secret))).
  { unfold slice0, padEnd. apply Forall_take, Forall_app. split; [exact Hs|].
    apply Forall_replicate. unfold is_ascii. lia. }
  unfold derive_key, derive_spec.
  rewrite (utf8_encode_ascii _ Hpad), (utf8_encode_ascii _ Hs), !length_map.
  unfold slice0, padEnd. split.
  - destruct (Nat.ltb_spec (length secret) 32) as [Hlt|Hge].
    + rewrite take_ge by (rewrite length_app, length_replicate; lia).
      now rewrite map_app, map_replicate.
    + replace (32 - length secret)%nat with 0%nat by lia.
      cbn [replicate]. rewrite app_nil_r. symmetry. apply firstn_map.
  - rewrite length_take, length_app, length_replicate. lia.
Qed.

(** C2. Key derivation, at a secret that is not ASCII: for the secret "é"
    (one UTF-16 code unit, two UTF-8 bytes) the code pads by code units and
    derives 33 bytes, not the 32 bytes the specification describes, and the
    cipher then refuses the key. *)
Theorem derive_key_non_ascii :
  length (utf8_encode [233]) = 2%nat /\
  length (derive_spec [233]) = 32%nat /\
  length (derive_key [233]) = 33%nat /\
  derive_key [233] <> derive_spec [233] /\
  (forall a iv P F, length iv = 16%nat ->
     encrypt_with_iv a (derive_key [233]) iv P F = inl InvalidKeyLength).
Proof.
  repeat split; try reflexivity.
  - intros H. apply (f_equal length) in H. vm_compute in H. discriminate H.
  - intros a iv P F Hi. unfold encrypt_with_iv, createCipheriv. now rewrite Hi.
Qed.

(** ** Detection *)

Lemma test_all_Forall (cls : Z -> bool) (s : jsstring) :
  test_all cls s = true <-> s <> [] /\ Forall (fun c => cls c = true) s.
Proof.
  unfold test_all. rewrite andb_true_iff, negb_true_iff, Nat.eqb_neq.
  rewrite forallb_forall, Forall_forall.
  setoid_rewrite list_elem_of_In.
  rewrite length_zero_iff_nil. tauto.
Qed.

Lemma test_any_punct (s : jsstring) :
  test_any is_base64_punct s = true <-> Exists (fun c => c = 43 \/ c = 47 \/ c = 61) s.
Proof.
  unfold test_any. rewrite existsb_exists, Exists_exists.
  unfold is_base64_punct.
  split; intros (c & Hin & Hc); exists c;
    (split; [now apply list_elem_of_In|]);
    rewrite !orb_true_iff, !Z.eqb_eq in *; tauto.
Qed.

Lemma rule_hex_test (ivString : jsstring) :
  (length ivString =? 32)%nat && test_all is_hex_char ivString = true
  <-> rule_hex ivString.
Proof.
  unfold rule_hex. rewrite andb_true_iff, Nat.eqb_eq, test_all_Forall.
  split; [tauto|]. intros [Hl Hf]. repeat split; try assumption.
  intros ->. discriminate Hl.
Qed.

Lemma rule_base64_test (ivString : jsstring) :
  ((length ivString =? 24)%nat || (length ivString =? 22)%nat)
    && test_any is_base64_punct ivString = true
  <-> rule_base64 ivString.
Proof.
  unfold rule_base64.
  now rewrite andb_true_iff, orb_true_iff, !Nat.eqb_eq, test_any_punct.
Qed.

Lemma rule_base64url_test (ivString : jsstring) :
  (length ivString =? 22)%nat && test_all is_base64url_char ivString = true
  <-> rule_base64url ivString.
Proof.
  unfold rule_base64url. rewrite andb_true_iff, Nat.eqb_eq, test_all_Forall.
  split; [tauto|]. intros [Hl Hf]. repeat split; try assumption.
  intros ->. discriminate Hl.
Qed.

(** The detection of lines 161 to 173, rule by rule and in their order. *)
Lemma detect_encoding_rules (ivString : jsstring) :
  (rule_hex ivString -> detect_encoding ivString = Some (hex, false)) /\
  (~ rule_hex ivString -> rule_base64 ivString ->
   detect_encoding ivString = Some (base64, false)) /\
  (~ rule_hex ivString -> ~ rule_base64 ivString -> rule_base64url ivString ->
   detect_encoding ivString = Some (base64, true)) /\
  (~ rule_hex ivString -> ~ rule_base64 ivString -> ~ rule_base64url ivString ->
   detect_encoding ivString = None).
Proof.
  pose proof (rule_hex_test ivString) as H1.
  pose proof (rule_base64_test ivString) as H2.
  pose proof (rule_base64url_test ivString) as H3.
  unfold detect_encoding.
  destruct ((length ivString =? 32)%nat && test_all is_hex_char ivString);
  destruct (((length ivString =? 24)%nat || (length ivString =? 22)%nat)
            && test_any is_base64_punct ivString);
  destruct ((length ivString =? 22)%nat && test_all is_base64url_char ivString);
  repeat split; intros; try reflexivity; exfalso;
    intuition (try discriminate; auto).
Qed.

Lemma base64url_char_not_punct (c : Z) :
  is_base64url_char c = true -> is_base64_punct c = false.
Proof.
  unfold is_base64url_char, is_base64_punct, is_upper, is_lower, is_digit, in_range.
  intros H. destruct (Z.eqb_spec c 43) as [->|]; [discriminate H|].
  destruct (Z.eqb_spec c 47) as [->|]; [discriminate H|].
  destruct (Z.eqb_spec c 61) as [->|]; [discriminate H|]. reflexivity.
Qed.

Lemma split_one (sep : Z) (s x : jsstring) :
  split sep s = [x] -> includes sep s = false /\ x = s.
Proof.
  revert x. induction s as [|c s IH]; intros x Hs.
  - injection Hs as <-. now split.
  - pose proof (length_split sep s) as Hlen.
    cbn [split] in Hs. cbn [includes existsb]. fold (includes sep s).
    rewrite Z.eqb_sym. destruct (c =? sep).
    + injection Hs as _ Hs. rewrite Hs in Hlen. discriminate Hlen.
    + destruct (split sep s) as [|seg segs]; [discriminate Hlen|].
      injection Hs as <- ->. destruct (IH seg eq_refl) as [Hi ->]. now split.
Qed.

(** The separator test of line 151 is implied by the segment count of
    line 155. *)
Lemma split_two_includes (s ivString encryptedData : jsstring) :
  split 46 s = [ivString; encryptedData] ->
  includes 46 s = true /\ s = ivString ++ 46 :: encryptedData /\
  includes 46 ivString = false /\ includes 46 encryptedData = false.
Proof.
  revert ivString. induction s as [|c s IH]; intros ivString Hs; [discriminate Hs|].
  cbn [split] in Hs. cbn [includes existsb]. fold (includes 46 s).
  rewrite Z.eqb_sym. destruct (Z.eqb_spec c 46) as [->|Hc].
  - injection Hs as <- Hs. apply split_one in Hs as [Hi ->].
    cbn [orb app]. now repeat split.
  - destruct (split 46 s) as [|seg segs] eqn:Hsp; [discriminate Hs|].
    injection Hs as <- ->.
    destruct (IH seg eq_refl) as (Hi & -> & Hi1 & Hi2).
    cbn [orb app includes existsb]. fold (includes 46 seg).
    rewrite Hi, Hi1, Hi2. repeat split.
    rewrite orb_false_r, Z.eqb_sym. now apply Z.eqb_neq.
Qed.

Lemma decrypt_two_segments (a : block_cipher) (key : list byte)
    (inputField ivString encryptedData : jsstring) :
  split 46 inputField = [ivString; encryptedData] ->
  decrypt a key inputField
  = match detect_encoding ivString with
    | None => inl (UndetectableEncoding (length ivString))
    | Some (encoding, isBase64Url) =>
        match decipher_token a key ivString encryptedData encoding isBase64Url with
        | inl error => inl (DecryptionFailed error)
        | inr decrypted => inr decrypted
        end
    end.
Proof.
  intros Hs. destruct (split_two_includes _ _ _ Hs) as (Hi & _).
  unfold decrypt. now rewrite Hi, Hs.
Qed.

(** C3. Detection precedence: when the IV segment of a token has 22
    characters, none of them [+], [/] or [=], all of them in
    [[A-Za-z0-9_-]], the base64 rule, which is tried first, does not apply,
    the encoding is detected as base64url, and decrypt decodes both segments
    on the base64url path. *)
Theorem detection_precedence (a : block_cipher) (key : list byte)
    (inputField ivString encryptedData : jsstring) :
  split 46 inputField = [ivString; encryptedData] ->
  length ivString = 22%nat ->
  test_any is_base64_punct ivString = false ->
  forallb is_base64url_char ivString = true ->
  ~ rule_base64 ivString /\
  option_map detected_format (detect_encoding ivString) = Some Base64URL /\
  decrypt a key inputField
  = match decipher_token a key ivString encryptedData base64 true with
    | inl error => inl (DecryptionFailed error)
    | inr decrypted => inr decrypted
    end.
Proof.
  intros Hs Hlen Hp Hc.
  assert (Hno : ~ rule_base64 ivString).
  { intros H%rule_base64_test. rewrite Hp, andb_false_r in H. discriminate H. }
  assert (Hdet : detect_encoding ivString = Some (base64, true)).
  { apply detect_encoding_rules; [|exact Hno|].
    - intros [H _]. rewrite Hlen in H. discriminate H.
    - split; [exact Hlen|]. apply Forall_forall. intros c Hin.
      rewrite forallb_forall in Hc. now apply Hc, list_elem_of_In. }
  split; [exact Hno|]. split; [now rewrite Hdet|].
  now rewrite (decrypt_two_segments _ _ _ _ _ Hs), Hdet.
Qed.

Lemma detection_precedence_witness :
  ~ rule_base64 (js "Zm9vYmFyYmF6cXV1eHhhQQ") /\
  option_map detected_format (detect_encoding (js "Zm9vYmFyYmF6cXV1eHhhQQ"))
  = Some Base64URL /\
  decrypt xor_cipher demo_key (js "Zm9vYmFyYmF6cXV1eHhhQQ.AAAA")
  = match decipher_token xor_cipher demo_key (js "Zm9vYmFyYmF6cXV1eHhhQQ")
            (js "AAAA") base64 true with
    | inl error => inl (DecryptionFailed error)
    | inr decrypted => inr decrypted
    end.
Proof.
  apply (detection_precedence xor_cipher demo_key
           (js "Zm9vYmFyYmF6cXV1eHhhQQ.AAAA") (js "Zm9vYmFyYmF6cXV1eHhhQQ")
           (js "AAAA")); reflexivity.
Defined.

(** C4. Structural validation: an input without a period, or one that
    splits on the period into other than two segments, makes decrypt fail
    with the format error of lines 152 and 156, whatever the key and the
    cipher: nothing is detected or deciphered, no plaintext is returned. *)
Theorem structural_validation (a : block_cipher) (key : list byte)
    (inputField : jsstring) :
  includes 46 inputField = false \/ length (split 46 inputField) <> 2%nat ->
  decrypt a key inputField = inl InvalidFormat /\
  is_FormatError InvalidFormat = true /\
  error_message InvalidFormat
  = js "Invalid encrypted text format. Expected format: iv.encryptedData".
Proof.
  intros H. split; [|split; reflexivity].
  unfold decrypt. destruct H as [H|H].
  - now rewrite H.
  - destruct (includes 46 inputField); [|reflexivity]. cbn [negb].
    apply Nat.eqb_neq in H. now rewrite H.
Qed.

Lemma structural_validation_witness :
  (decrypt xor_cipher demo_key (js "abcdef") = inl InvalidFormat /\
   is_FormatError InvalidFormat = true /\
   error_message InvalidFormat
   = js "Invalid encrypted text format. Expected format: iv.encryptedData") /\
  (decrypt xor_cipher demo_key (js "a.b.c") = inl InvalidFormat /\
   is_FormatError InvalidFormat = true /\
   error_message InvalidFormat
   = js "Invalid encrypted text format. Expected format: iv.encryptedData").
Proof.
  split.
  - apply structural_validation. left. reflexivity.
  - apply structural_validation. right. vm_compute. lia.
Defined.

(** C5. Detection failure: when the IV segment of a two-segment token
    meets none of the three rules, decrypt fails with the format error of
    line 172, whose message spells out the length of the IV segment,
    whatever the key and the cipher. *)
Theorem detection_failure (a : block_cipher) (key : list byte)
    (inputField ivString encryptedData : jsstring) :
  split 46 inputField = [ivString; encryptedData] ->
  ~ rule_hex ivString -> ~ rule_base64 ivString -> ~ rule_base64url ivString ->
  decrypt a key inputField = inl (UndetectableEncoding (length ivString)) /\
  is_FormatError (UndetectableEncoding (length ivString)) = true /\
  error_message (UndetectableEncoding (length ivString))
  = js "Unable to detect encoding format. IV length: "
      ++ number_to_string (length ivString)
      ++ js ". Expected 32 (hex), 24 (base64), or 22 (base64url)".
Proof.
  intros Hs H1 H2 H3. split; [|split; reflexivity].
  rewrite (decrypt_two_segments _ _ _ _ _ Hs).
  now rewrite (proj2 (proj2 (proj2 (detect_encoding_rules ivString))) H1 H2 H3).
Qed.

Lemma detection_failure_witness :
  decrypt xor_cipher demo_key (js "0123456789.abcd") = inl (UndetectableEncoding 10) /\
  is_FormatError (UndetectableEncoding 10) = true /\
  error_message (UndetectableEncoding 10)
  = js "Unable to detect encoding format. IV length: 10. Expected 32 (hex), 24 (base64), or 22 (base64url)".
Proof.
  refine (detection_failure xor_cipher demo_key (js "0123456789.abcd")
            (js "0123456789") (js "abcd") eq_refl _ _ _).
  - intros [H _]. vm_compute in H. lia.
  - intros [[H|H] _]; vm_compute in H; lia.
  - intros [H _]. vm_compute in H. lia.
Defined.

(** C10. Empty ciphertext segment: for an input made of a segment that
    passes the encoding detection, followed by the period and nothing more,
    the structural validation and the detection succeed, and the call fails
    inside the decryption step, with the decryption error of line 193 and
    no format error. *)
Theorem empty_ciphertext (a : block_cipher) (key : list byte) (ivString : jsstring) :
  includes 46 ivString = false ->
  rule_hex ivString \/ rule_base64 ivString \/ rule_base64url ivString ->
  split 46 (ivString ++ [46]) = [ivString; []] /\
  (exists d, detect_encoding ivString = Some d) /\
  exists cause,
    decrypt a key (ivString ++ [46]) = inl (DecryptionFailed cause) /\
    is_DecryptError (DecryptionFailed cause) = true /\
    is_FormatError (DecryptionFailed cause) = false.
Proof.
  intros Hi Hrule.
  assert (Hs : split 46 (ivString ++ [46]) = [ivString; []])
    by now apply split_two.
  assert (Hd : exists d, detect_encoding ivString = Some d).
  { pose proof (rule_hex_test ivString) as H1.
    pose proof (rule_base64_test ivString) as H2.
    pose proof (rule_base64url_test ivString) as H3.
    unfold detect_encoding.
    destruct ((length ivString =? 32)%nat && test_all is_hex_char ivString);
      [eauto|].
    destruct (((length ivString =? 24)%nat || (length ivString =? 22)%nat)
              && test_any is_base64_punct ivString); [eauto|].
    destruct ((length ivString =? 22)%nat && test_all is_base64url_char ivString);
      [eauto|].
    exfalso. intuition discriminate. }
  split; [exact Hs|]. split; [exact Hd|].
  destruct Hd as [[encoding isBase64Url] Hd].
  rewrite (decrypt_two_segments _ _ _ _ _ Hs), Hd.
  assert (Hfail : exists cause,
    decipher_token a key ivString [] encoding isBase64Url = inl cause).
  { unfold decipher_token.
    assert (Hempty : (if isBase64Url
                      then (Buffer_from (from_base64url ivString) base64,
                            Buffer_from (from_base64url []) base64)
                      else (Buffer_from ivString encoding, Buffer_from [] encoding))
                     = (if isBase64Url
                        then Buffer_from (from_base64url ivString) base64
                        else Buffer_from ivString encoding, [])).
    { destruct isBase64Url; [reflexivity|]. now destruct encoding. }
    rewrite Hempty.
    destruct (createDecipheriv key _) as [e|d]; [now exists e|].
    now exists WrongFinalBlockLength. }
  destruct Hfail as [cause Hfail]. exists cause. now rewrite Hfail.
Qed.

Lemma empty_ciphertext_witness :
  split 46 (js "00112233445566778899aabbccddeeff" ++ [46])
  = [js "00112233445566778899aabbccddeeff"; []] /\
  (exists d, detect_encoding (js "00112233445566778899aabbccddeeff") = Some d) /\
  exists cause,
    decrypt xor_cipher demo_key (js "00112233445566778899aabbccddeeff" ++ [46])
    = inl (DecryptionFailed cause) /\
    is_DecryptError (DecryptionFailed cause) = true /\
    is_FormatError (DecryptionFailed cause) = false.
Proof.
  apply empty_ciphertext; [reflexivity|].
  left. apply rule_hex_test. reflexivity.
Defined.

(** ** The shape of a token *)

Lemma hex_encode_not_nil (bs : list byte) : bs <> [] -> hex_encode bs <> [].
Proof. now destruct bs. Qed.

Lemma base64_values_of_not_nil (bs : list byte) : bs <> [] -> base64_values_of bs <> [].
Proof. now destruct bs as [|a [|b [|c r]]]. Qed.

Lemma base64_encode_not_nil (bs : list byte) : bs <> [] -> base64_encode bs <> [].
Proof. now destruct bs as [|a [|b [|c r]]]. Qed.

Lemma to_base64url_encode_not_nil (bs : list byte) :
  bs <> [] -> to_base64url (base64_encode bs) <> [].
Proof.
  intros H%base64_values_of_not_nil. rewrite to_base64url_encode.
  now destruct (base64_values_of bs).
Qed.

Lemma not_nil_length {A} (l : list A) : (0 < length l)%nat -> l <> [].
Proof. intros H ->. cbn [length] in H. lia. Qed.

Lemma matches_hex_token_text (iv ct : list byte) :
  length iv = 16%nat -> ct <> [] -> matches_hex_token (token_text Hex iv ct) = true.
Proof.
  intros Hi Hct. unfold matches_hex_token. cbn [token_text app].
  assert (Hl : length (hex_encode iv) = 32%nat)
    by (rewrite length_hex_encode; lia).
  rewrite take_app_length', drop_app_length' by (symmetry; exact Hl).
  rewrite hex_encode_lower. rewrite length_app, Hl. cbn [length].
  replace (32 <? 32 + S (length (hex_encode ct)))%nat with true
    by (symmetry; apply Nat.ltb_lt; lia).
  cbn [andb]. rewrite Z.eqb_refl. cbn [andb].
  apply test_all_Forall. split; [now apply hex_encode_not_nil|].
  apply Forall_forall. intros c Hc.
  pose proof (hex_encode_lower ct) as Hall. rewrite forallb_forall in Hall.
  now apply Hall, list_elem_of_In.
Qed.

(** What the encrypt path returns, and where it leaves the random tape. *)
Lemma encrypt_token (h : Host) (key : list byte) (P : jsstring) (F : OutputFormat)
    (pos : nat) :
  length key = 32%nat ->
  encrypt h key P F pos
  = (inr (token_text F (List.map (entropy h) (seq pos 16))
            (cbc_encrypt (aes h) key (List.map (entropy h) (seq pos 16))
               (utf8_encode P))),
     (pos + 16)%nat).
Proof.
  intros Hk. unfold encrypt, bind, randomBytes.
  rewrite encrypt_with_iv_token; [reflexivity|exact Hk|].
  now rewrite length_map, length_seq.
Qed.

Lemma token_text_shape (F : OutputFormat) (iv ct : list byte) :
  length iv = 16%nat -> ct <> [] ->
  exists ivString encrypted,
    split 46 (token_text F iv ct) = [ivString; encrypted] /\
    ivString <> [] /\ encrypted <> [] /\
    (F = Hex ->
     matches_hex_token (token_text F iv ct) = true /\
     token_text F iv ct = ivString ++ [46] ++ encrypted /\
     length ivString = 32%nat /\
     forallb is_lower_hex_char ivString = true /\
     forallb is_lower_hex_char encrypted = true).
Proof.
  intros Hi Hct.
  assert (Hiv : iv <> []) by (apply not_nil_length; lia).
  destruct F.
  - exists (hex_encode iv), (hex_encode ct).
    split; [apply split_two; apply includes_hex_encode|].
    split; [now apply hex_encode_not_nil|]. split; [now apply hex_encode_not_nil|].
    intros _. split; [now apply matches_hex_token_text|].
    split; [reflexivity|]. split; [rewrite length_hex_encode; lia|].
    split; apply hex_encode_lower.
  - exists (base64_encode iv), (base64_encode ct).
    split; [apply split_two; apply includes_base64_encode|].
    split; [now apply base64_encode_not_nil|].
    split; [now apply base64_encode_not_nil|]. discriminate.
  - exists (to_base64url (base64_encode iv)), (to_base64url (base64_encode ct)).
    split; [apply split_two; apply includes_base64url_encode|].
    split; [now apply to_base64url_encode_not_nil|].
    split; [now apply to_base64url_encode_not_nil|]. discriminate.
Qed.

(** C9. Token shape: the token the encrypt path produces splits on the
    period into exactly two segments, both non-empty, and in the hex format
    it matches [^[0-9a-f]{32}\.[0-9a-f]+$]: 32 lowercase hexadecimal digits,
    one period, and at least one lowercase hexadecimal digit. *)
Theorem token_shape (h : Host) (key : list byte) (P : jsstring) (F : OutputFormat)
    (pos : nat) :
  block_cipher_ok (aes h) -> length key = 32%nat ->
  exists token ivString encrypted,
    fst (encrypt h key P F pos) = inr token /\
    split 46 token = [ivString; encrypted] /\
    ivString <> [] /\ encrypted <> [] /\
    (F = Hex ->
     matches_hex_token token = true /\
     token = ivString ++ [46] ++ encrypted /\
     length ivString = 32%nat /\
     forallb is_lower_hex_char ivString = true /\
     forallb is_lower_hex_char encrypted = true).
Proof.
  intros Hok Hk. rewrite (encrypt_token h key P F pos Hk).
  assert (Hi : length (List.map (entropy h) (seq pos 16)) = 16%nat)
    by now rewrite length_map, length_seq.
  revert Hi. generalize (List.map (entropy h) (seq pos 16)) as iv. intros iv Hi.
  assert (Hct : cbc_encrypt (aes h) key iv (utf8_encode P) <> []).
  { apply not_nil_length.
    rewrite (length_cbc_encrypt _ Hok _ _ Hk Hi). apply pkcs7_pad_whole. }
  revert Hct. generalize (cbc_encrypt (aes h) key iv (utf8_encode P)) as ct.
  intros ct Hct.
  destruct (token_text_shape F iv ct Hi Hct) as (ivString & encrypted & H).
  exists (token_text F iv ct), ivString, encrypted. split; [reflexivity|exact H].
Qed.

Lemma token_shape_witness :
  exists token ivString encrypted,
    fst (encrypt demo_host demo_key (js "hello world") Hex 0%nat) = inr token /\
    split 46 token = [ivString; encrypted] /\
    ivString <> [] /\ encrypted <> [] /\
    (Hex = Hex ->
     matches_hex_token token = true /\
     token = ivString ++ [46] ++ encrypted /\
     length ivString = 32%nat /\
     forallb is_lower_hex_char ivString = true /\
     forallb is_lower_hex_char encrypted = true).
Proof.
  exact (token_shape demo_host demo_key (js "hello world") Hex 0%nat
           xor_cipher_ok eq_refl).
Defined.

(** ** [execute] *)

(** C7. The configuration error comes before all items: when
    N8N_ENCRYPTION_KEY is absent (or empty), [execute] throws the error of
    line 110, with no item index, whatever the items, their parameters and
    the failure mode are; no output record is returned. *)
Theorem config_error (h : Host) (this : IExecuteFunctions) :
  env_N8N_ENCRYPTION_KEY h = None \/ env_N8N_ENCRYPTION_KEY h = Some [] ->
  execute h this = inl {| thrown_error := KeyNotSet; thrown_itemIndex := None |} /\
  is_ConfigError KeyNotSet = true /\
  error_message KeyNotSet = js "N8N_ENCRYPTION_KEY environment variable is not set".
Proof.
  intros H. split; [|split; reflexivity].
  unfold execute. now destruct H as [-> | ->].
Qed.

Lemma config_error_witness :
  execute {| aes := xor_cipher; entropy := entropy demo_host;
             env_N8N_ENCRYPTION_KEY := None |} demo_this
  = inl {| thrown_error := KeyNotSet; thrown_itemIndex := None |} /\
  is_ConfigError KeyNotSet = true /\
  error_message KeyNotSet = js "N8N_ENCRYPTION_KEY environment variable is not set".
Proof.
  apply config_error. left. reflexivity.
Defined.

(** What the body of the [try] does, case by case on the operation. *)
Lemma process_item_inv (h : Host) (this : IExecuteFunctions) (key : list byte)
    (items : list INodeExecutionData) (itemIndex : nat)
    (outputItem : INodeExecutionData) (pos pos' : nat) :
  process_item h this key items itemIndex pos = (inr outputItem, pos') ->
  let p := getNodeParameter this itemIndex in
  exists result,
    ((param_operation p = js "encrypt" /\
      encrypt h key (param_inputField p)
        (default Hex (opt_outputFormat (param_options p))) pos = (inr result, pos'))
     \/ (param_operation p = js "decrypt" /\ pos' = pos /\
         decrypt (aes h) key (param_inputField p) = inr result)) /\
    outputItem = output_item items itemIndex p result.
Proof.
  cbv zeta. unfold process_item, output_item, bind.
  destruct (decide (param_operation (getNodeParameter this itemIndex) = js "encrypt"))
    as [Hop|Hop].
  - destruct (encrypt h key _ _ pos) as [[e|result] pos1] eqn:Henc; [discriminate|].
    unfold ret. intros [= <- <-]. exists result. split; [|reflexivity].
    left. now split.
  - destruct (decide (param_operation (getNodeParameter this itemIndex) = js "decrypt"))
      as [Hop'|Hop'].
    + unfold pure_result.
      destruct (decrypt (aes h) key _) as [e|result] eqn:Hdec;
        unfold throw, ret; [discriminate|].
      intros [= <- <-]. exists result. split; [|reflexivity].
      right. now repeat split.
    + unfold throw. discriminate.
Qed.

(** Assignment under a name other than [__proto__] sets the field. *)
Lemma assign_field_other (obj : gmap jsstring js_value) (name : jsstring)
    (value : js_value) :
  name <> js "__proto__" -> assign_field obj name value = <[name := value]> obj.
Proof.
  intros Hname. unfold assign_field.
  destruct (decide (name = js "__proto__")) as [Heq|_]; [contradiction|reflexivity].
Qed.







(** Under [continueOnFail] the loop never throws: it appends one record
    per remaining item, in order. *)
Lemma execute_loop_continue (h : Host) (this : IExecuteFunctions) (key : list byte)
    (items : list INodeExecutionData) (remaining itemIndex : nat)
    (returnData : list INodeExecutionData) :
  continueOnFail this = true ->
  execute_loop h this key items remaining itemIndex returnData
    (position_at h this key items itemIndex)
  = inr (returnData
           ++ List.map (item_record h this key items) (seq itemIndex remaining)).
Proof.
  intros Hc. revert itemIndex returnData.
  induction remaining as [|remaining IH]; intros itemIndex returnData.
  - cbn [execute_loop seq List.map]. now rewrite app_nil_r.
  - cbn [execute_loop seq List.map].
    unfold item_record at 1, item_outcome.
    pose proof (IH (S itemIndex)) as IHS. cbn [position_at] in IHS.
    destruct (process_item h this key items itemIndex
                (position_at h this key items itemIndex)) as [[error|outputItem] pos'];
      cbn [fst snd] in *; rewrite ?Hc, IHS, <- app_assoc; reflexivity.
Qed.

Lemma pairedItem_item_record (h : Host) (this : IExecuteFunctions) (key : list byte)
    (items : list INodeExecutionData) (itemIndex : nat) :
  pairedItem (item_record h this key items itemIndex) = Some itemIndex.
Proof.
  unfold item_record, item_outcome.
  destruct (process_item h this key items itemIndex _) as [[error|outputItem] pos']
    eqn:Hp; cbn [fst]; [reflexivity|].
  destruct (process_item_inv _ _ _ _ _ _ _ _ Hp) as (result & _ & ->). reflexivity.
Qed.

(** C6. Batch isolation: in the failure-tolerant mode [execute] returns one
    record per input item, in input order; the record of an item whose
    processing throws holds the message under [error], the record of every
    other item is its normal output, and each record is paired with the
    index of its item. *)
Theorem batch_isolation (h : Host) (this : IExecuteFunctions)
    (encryptionKey : jsstring) :
  env_N8N_ENCRYPTION_KEY h = Some encryptionKey ->
  (0 < length encryptionKey)%nat ->
  continueOnFail this = true ->
  let items := getInputData this in
  let key := derive_key encryptionKey in
  exists returnData,
    execute h this = inr [returnData] /\
    length returnData = length items /\
    forall itemIndex, (itemIndex < length items)%nat ->
      (forall outputItem,
         item_outcome h this key items itemIndex = inr outputItem ->
         returnData !! itemIndex = Some outputItem) /\
      (forall error,
         item_outcome h this key items itemIndex = inl error ->
         returnData !! itemIndex
         = Some {| json := {[ js "error" := JString (error_message error) ]};
                   pairedItem := Some itemIndex |}) /\
      (exists record,
         returnData !! itemIndex = Some record /\
         pairedItem record = Some itemIndex).
Proof.
  intros Henv Hlen Hc. cbv zeta.
  set (items := getInputData this). set (key := derive_key encryptionKey).
  exists (List.map (item_record h this key items) (seq 0 (length items))).
  split; [|split].
  - unfold execute. rewrite Henv.
    destruct encryptionKey as [|c s]; [cbn [length] in Hlen; lia|].
    fold items key.
    pose proof (execute_loop_continue h this key items (length items) 0 [] Hc) as Hl.
    cbn [position_at app] in Hl. now rewrite Hl.
  - now rewrite length_map, length_seq.
  - intros itemIndex Hi.
    assert (Hlook : List.map (item_record h this key items) (seq 0 (length items))
                      !! itemIndex
                    = Some (item_record h this key items itemIndex)).
    { change (List.map ?f ?l) with (f <$> l).
      rewrite list_lookup_fmap, lookup_seq_lt by exact Hi. reflexivity. }
    rewrite Hlook. split; [|split].
    + intros outputItem Ho. unfold item_record. now rewrite Ho.
    + intros error He. unfold item_record. now rewrite He.
    + eexists. split; [reflexivity|]. apply pairedItem_item_record.
Qed.

Lemma batch_isolation_witness :
  exists returnData,
    execute demo_host demo_this = inr [returnData] /\
    length returnData = length demo_items /\
    forall itemIndex, (itemIndex < length demo_items)%nat ->
      (forall outputItem,
         item_outcome demo_host demo_this demo_key demo_items itemIndex
         = inr outputItem ->
         returnData !! itemIndex = Some outputItem) /\
      (forall error,
         item_outcome demo_host demo_this demo_key demo_items itemIndex = inl error ->
         returnData !! itemIndex
         = Some {| json := {[ js "error" := JString (error_message error) ]};
                   pairedItem := Some itemIndex |}) /\
      (exists record,
         returnData !! itemIndex = Some record /\
         pairedItem record = Some itemIndex).
Proof.
  apply (batch_isolation demo_host demo_this demo_secret);
    [reflexivity | vm_compute; lia | reflexivity].
Defined.

(** The batch of the specification: three items, the second a malformed
    token, in the failure-tolerant mode. *)
Example batch_of_three :
  item_outcome demo_host demo_this demo_key demo_items 1 = inl InvalidFormat /\
  (exists first third,
     item_outcome demo_host demo_this demo_key demo_items 0 = inr first /\
     item_outcome demo_host demo_this demo_key demo_items 2 = inr third /\
     execute demo_host demo_this
     = inr [[first; error_item InvalidFormat 1; third]]).
Proof.
  split; [reflexivity|]. eexists _, _. repeat split.
Qed.

(** ** The model at work *)

(** The end-to-end example of the specification, with the stand-in block
    permutation: the token is an IV of 32 hexadecimal digits, a period and
    the hexadecimal ciphertext, and it decrypts to the plaintext. *)
Example hello_world_hex :
  fst (encrypt demo_host demo_key (js "hello world") Hex 0%nat)
  = inr (js "0b30557a9fc4e90e33587da2c7ec1136.53640b25c4d1a856790d78c5a18d7155") /\
  decrypt xor_cipher demo_key
    (js "0b30557a9fc4e90e33587da2c7ec1136.53640b25c4d1a856790d78c5a18d7155")
  = inr (js "hello world").
Proof. split; vm_compute; reflexivity. Qed.

(** The same plaintext in the two base64 formats. *)
Example hello_world_base64 :
  fst (encrypt demo_host demo_key (js "hello world") Base64 0%nat)
  = inr (js "CzBVep/E6Q4zWH2ix+wRNg==.U2QLJcTRqFZ5DXjFoY1xVQ==") /\
  fst (encrypt demo_host demo_key (js "hello world") Base64URL 0%nat)
  = inr (js "CzBVep_E6Q4zWH2ix-wRNg.U2QLJcTRqFZ5DXjFoY1xVQ").
Proof. split; vm_compute; reflexivity. Qed.

(** The empty plaintext is one block of padding. *)
Example empty_plaintext :
  fst (encrypt demo_host demo_key [] Hex 0%nat)
  = inr (js "0b30557a9fc4e90e33587da2c7ec1136.2b117759bbe1cf291b710cd0b4986440") /\
  decrypt xor_cipher demo_key
    (js "0b30557a9fc4e90e33587da2c7ec1136.2b117759bbe1cf291b710cd0b4986440")
  = inr [].
Proof. split; vm_compute; reflexivity. Qed.

(** An unpaired surrogate has no UTF-8 bytes of its own: the encoder writes
    U+FFFD in its place, which is why the round trip is stated for Unicode
    text. *)
Example unpaired_surrogate :
  isWellFormed [0xD800] = false /\
  utf8_decode_string (utf8_encode [0xD800]) = [0xFFFD].
Proof. split; reflexivity. Qed.

(** A 22-character IV text that reads both as unpadded standard base64 and
    as base64url decodes to the same bytes on either path. *)
Example ambiguous_iv :
  detect_encoding (js "Zm9vYmFyYmF6cXV1eHhhQQ") = Some (base64, true) /\
  Buffer_from (from_base64url (js "Zm9vYmFyYmF6cXV1eHhhQQ")) base64
  = Buffer_from (js "Zm9vYmFyYmF6cXV1eHhhQQ") base64.
Proof. split; reflexivity. Qed.

(** [Buffer.from] reads the characters of a hex or base64 text by their low
    bytes: U+0130 and U+0141 count as the digits [0] and [A]. *)
Example low_byte_digits :
  Buffer_from [0x130; 0x141] hex = Buffer_from (js "0A") hex /\
  Buffer_from [0x141; 0x141; 0x141; 0x141] base64 = Buffer_from (js "AAAA") base64 /\
  test_all is_hex_char [0x130; 0x141] = false.
Proof. repeat split; reflexivity. Qed.

(** An output field named [__proto__] is written when the item has a field
    of that name, and only then. *)
Example proto_field :
  assign_field ∅ (js "__proto__") (JString (js "token")) = ∅ /\
  assign_field {[ js "__proto__" := JNumber 1 ]} (js "__proto__")
    (JString (js "token"))
  = {[ js "__proto__" := JString (js "token") ]} /\
  assign_field ∅ (js "result") (JString (js "token"))
  = {[ js "result" := JString (js "token") ]}.
Proof. repeat split; reflexivity. Qed.

(** * Further properties of [execute] *)

(** ** The body of the loop, operation by operation *)

Lemma process_item_encrypt (h : Host) (this : IExecuteFunctions) (key : list byte)
    (items : list INodeExecutionData) (itemIndex pos : nat) :
  let p := getNodeParameter this itemIndex in
  param_operation p = js "encrypt" ->
  process_item h this key items itemIndex pos
  = match encrypt h key (param_inputField p)
            (default Hex (opt_outputFormat (param_options p))) pos with
    | (inr result, pos') => (inr (output_item items itemIndex p result), pos')
    | (inl error, pos') => (inl error, pos')
    end.
Proof.
  cbv zeta. intros Hop. unfold process_item, bind.
  destruct (decide (param_operation (getNodeParameter this itemIndex) = js "encrypt"))
    as [_|Hn]; [|contradiction].
  now destruct (encrypt h key _ _ pos) as [[error|result] pos'].
Qed.

Lemma process_item_decrypt (h : Host) (this : IExecuteFunctions) (key : list byte)
    (items : list INodeExecutionData) (itemIndex pos : nat) :
  let p := getNodeParameter this itemIndex in
  param_operation p = js "decrypt" ->
  process_item h this key items itemIndex pos
  = match decrypt (aes h) key (param_inputField p) with
    | inr result => (inr (output_item items itemIndex p result), pos)
    | inl error => (inl error, pos)
    end.
Proof.
  cbv zeta. intros Hop. unfold process_item, bind.
  destruct (decide (param_operation (getNodeParameter this itemIndex) = js "encrypt"))
    as [He|_]; [rewrite Hop in He; discriminate He|].
  destruct (decide (param_operation (getNodeParameter this itemIndex) = js "decrypt"))
    as [_|Hn]; [|contradiction].
  now destruct (decrypt (aes h) key _) as [error|result].
Qed.

Lemma process_item_other (h : Host) (this : IExecuteFunctions) (key : list byte)
    (items : list INodeExecutionData) (itemIndex pos : nat) :
  let p := getNodeParameter this itemIndex in
  param_operation p <> js "encrypt" -> param_operation p <> js "decrypt" ->
  process_item h this key items itemIndex pos
  = (inl (UnknownOperation (param_operation p)), pos).
Proof.
  cbv zeta. intros He Hd. unfold process_item, bind.
  destruct (decide (param_operation (getNodeParameter this itemIndex) = js "encrypt"))
    as [Hy|_]; [contradiction|].
  now destruct (decide (param_operation (getNodeParameter this itemIndex) = js "decrypt")).
Qed.

(** The decrypt path throws format errors and decryption errors only. *)
Lemma decrypt_error_kind (a : block_cipher) (key : list byte) (inputField : jsstring)
    (error : NodeError) :
  decrypt a key inputField = inl error ->
  is_FormatError error = true \/ is_DecryptError error = true.
Proof.
  unfold decrypt. intros Hp.
  destruct (negb (includes 46 _)); [injection Hp as <-; now left|].
  destruct (negb (length (split 46 _) =? 2)%nat); [injection Hp as <-; now left|].
  destruct (detect_encoding _) as [[encoding isBase64Url]|];
    [|injection Hp as <-; now left].
  destruct (decipher_token _ _ _ _ _ _); [|discriminate Hp].
  injection Hp as <-. now right.
Qed.

Lemma encrypt_result (h : Host) (key : list byte) (P : jsstring) (F : OutputFormat)
    (pos : nat) :
  encrypt h key P F pos
  = (if (length key =? 32)%nat
     then inr (token_text F (List.map (entropy h) (seq pos 16))
                 (cbc_encrypt (aes h) key (List.map (entropy h) (seq pos 16))
                    (utf8_encode P)))
     else inl (CipherError InvalidKeyLength),
     (pos + 16)%nat).
Proof.
  destruct (Nat.eqb_spec (length key) 32) as [Hk|Hk].
  - now apply encrypt_token.
  - unfold encrypt, bind, randomBytes, encrypt_with_iv, createCipheriv.
    rewrite length_map, length_seq. cbn [Nat.eqb negb].
    now replace (length key =? 32)%nat with false by (symmetry; now apply Nat.eqb_neq).
Qed.

(** ** Failing and not failing *)

(** X7. For an input that is a string and an output format among the three
    of the description, encrypting fails exactly when the key is not 32
    bytes long, and then with the 'Invalid key length' of [createCipheriv];
    with a 32-byte key it succeeds for every such input and format. *)
Theorem encrypt_fails_iff_key_length (h : Host) (key : list byte) (P : jsstring)
    (F : OutputFormat) (pos : nat) :
  (length key = 32%nat <-> exists token, fst (encrypt h key P F pos) = inr token) /\
  (length key <> 32%nat <->
   fst (encrypt h key P F pos) = inl (CipherError InvalidKeyLength)).
Proof.
  rewrite encrypt_result. cbn [fst].
  destruct (Nat.eqb_spec (length key) 32) as [Hk|Hk]; split; split;
    try (intros; eauto; fail); try (intros; congruence).
  - intros [token H]. discriminate H.
Qed.



(** X9. The operations the description offers are the ones [execute]
    handles: an item fails with 'Unknown operation' exactly when its
    operation is none of the values of the 'operation' parameter. *)
Theorem unknown_operation_iff (h : Host) (this : IExecuteFunctions) (key : list byte)
    (items : list INodeExecutionData) (itemIndex pos : nat) :
  let operation := param_operation (getNodeParameter this itemIndex) in
  (~ In operation operation_options <->
   fst (process_item h this key items itemIndex pos) = inl (UnknownOperation operation)) /\
  In operation_default operation_options.
Proof.
  cbv zeta. split; [|now left]. unfold operation_options. cbn [In]. split.
  - intros Hn. rewrite process_item_other; [reflexivity| |]; intros Heq; apply Hn; auto.
  - intros Hp [Ho|[Ho|[]]]; symmetry in Ho.
    + rewrite (process_item_encrypt h this key items itemIndex pos Ho) in Hp.
      rewrite encrypt_result in Hp.
      destruct (length key =? 32)%nat; discriminate Hp.
    + rewrite (process_item_decrypt h this key items itemIndex pos Ho) in Hp.
      destruct (decrypt (aes h) key _) as [e|result] eqn:Hdec; [|discriminate Hp].
      cbn [fst] in Hp. injection Hp as ->.
      destruct (decrypt_error_kind _ _ _ _ Hdec) as [Hc|Hc]; discriminate Hc.
Qed.

(** ** The loop when items succeed, and when one fails *)

(** While the items succeed the failure mode plays no part. *)
Lemma execute_loop_succeed (h : Host) (this : IExecuteFunctions) (key : list byte)
    (items : list INodeExecutionData) (remaining itemIndex : nat)
    (returnData : list INodeExecutionData) :
  (forall i, (itemIndex <= i < itemIndex + remaining)%nat ->
     exists outputItem, item_outcome h this key items i = inr outputItem) ->
  execute_loop h this key items remaining itemIndex returnData
    (position_at h this key items itemIndex)
  = inr (returnData
           ++ List.map (item_record h this key items) (seq itemIndex remaining)).
Proof.
  revert itemIndex returnData.
  induction remaining as [|remaining IH]; intros itemIndex returnData Hall.
  - cbn [execute_loop seq List.map]. now rewrite app_nil_r.
  - cbn [execute_loop seq List.map].
    destruct (Hall itemIndex) as [outputItem Ho]; [lia|].
    unfold item_record at 1. rewrite Ho.
    pose proof (IH (S itemIndex)) as IHS. cbn [position_at] in IHS.
    unfold item_outcome in Ho.
    destruct (process_item h this key items itemIndex
                (position_at h this key items itemIndex)) as [[error|o] pos'];
      cbn [fst snd] in *; [discriminate Ho|].
    injection Ho as ->. rewrite IHS, <- app_assoc; [reflexivity|].
    intros i Hi. apply Hall. lia.
Qed.

Lemma execute_loop_abort (h : Host) (this : IExecuteFunctions) (key : list byte)
    (items : list INodeExecutionData) (remaining itemIndex k : nat)
    (returnData : list INodeExecutionData) (error : NodeError) :
  continueOnFail this = false ->
  (itemIndex <= k < itemIndex + remaining)%nat ->
  (forall i, (itemIndex <= i < k)%nat ->
     exists outputItem, item_outcome h this key items i = inr outputItem) ->
  item_outcome h this key items k = inl error ->
  execute_loop h this key items remaining itemIndex returnData
    (position_at h this key items itemIndex)
  = inl {| thrown_error := error; thrown_itemIndex := Some k |}.
Proof.
  intros Hc. revert itemIndex returnData.
  induction remaining as [|remaining IH]; intros itemIndex returnData Hk Hbefore Herr;
    [lia|].
  cbn [execute_loop].
  pose proof (IH (S itemIndex)) as IHS. cbn [position_at] in IHS.
  destruct (Nat.eq_dec itemIndex k) as [->|Hne].
  - unfold item_outcome in Herr.
    destruct (process_item h this key items k (position_at h this key items k))
      as [[e|o] pos']; cbn [fst] in Herr; [|discriminate Herr].
    injection Herr as ->. now rewrite Hc.
  - destruct (Hbefore itemIndex) as [outputItem Ho]; [lia|].
    unfold item_outcome in Ho.
    destruct (process_item h this key items itemIndex
                (position_at h this key items itemIndex)) as [[e|o] pos'];
      cbn [fst snd] in *; [discriminate Ho|].
    apply IHS; [lia| |exact Herr]. intros i Hi. apply Hbefore. lia.
Qed.

(** X1. Without [continueOnFail] the first item that fails ends the run:
    [execute] throws the error of that item, tagged with its index, and
    returns no record, not even those of the items before it. *)
Theorem abort_on_first_failure (h : Host) (this : IExecuteFunctions)
    (encryptionKey : jsstring) (k : nat) (error : NodeError) :
  env_N8N_ENCRYPTION_KEY h = Some encryptionKey ->
  (0 < length encryptionKey)%nat ->
  continueOnFail this = false ->
  let items := getInputData this in
  let key := derive_key encryptionKey in
  (k < length items)%nat ->
  (forall i, (i < k)%nat ->
     exists outputItem, item_outcome h this key items i = inr outputItem) ->
  item_outcome h this key items k = inl error ->
  execute h this = inl {| thrown_error := error; thrown_itemIndex := Some k |}.
Proof.
  intros Henv Hlen Hc. cbv zeta. intros Hk Hbefore Herr.
  unfold execute. rewrite Henv.
  destruct encryptionKey as [|c s]; [cbn [length] in Hlen; lia|].
  pose proof (execute_loop_abort h this (derive_key (c :: s)) (getInputData this)
                (length (getInputData this)) 0 k [] error Hc) as Hl.
  cbn [position_at] in Hl. rewrite Hl; [reflexivity|lia| |exact Herr].
  intros i Hi. apply Hbefore. lia.
Qed.

Lemma abort_on_first_failure_witness :
  execute demo_host demo_this_strict
  = inl {| thrown_error := InvalidFormat; thrown_itemIndex := Some 1%nat |}.
Proof.
  apply (abort_on_first_failure demo_host demo_this_strict demo_secret 1 InvalidFormat);
    [reflexivity | vm_compute; lia | reflexivity | vm_compute; lia | | reflexivity].
  intros i Hi. assert (i = 0%nat) as -> by lia. eexists. reflexivity.
Defined.

(** The body of the loop reads [this] through [getNodeParameter] only. *)
Lemma process_item_ext (h : Host) (this this' : IExecuteFunctions) (key : list byte)
    (items : list INodeExecutionData) (itemIndex pos : nat) :
  getNodeParameter this' itemIndex = getNodeParameter this itemIndex ->
  process_item h this' key items itemIndex pos
  = process_item h this key items itemIndex pos.
Proof. intros Hp. unfold process_item. now rewrite Hp. Qed.

Lemma position_at_ext (h : Host) (this this' : IExecuteFunctions) (key : list byte)
    (items : list INodeExecutionData) (itemIndex : nat) :
  (forall i, getNodeParameter this' i = getNodeParameter this i) ->
  position_at h this' key items itemIndex = position_at h this key items itemIndex.
Proof.
  intros Hp. induction itemIndex as [|i IH]; [reflexivity|].
  cbn [position_at]. now rewrite IH, (process_item_ext h this this') by apply Hp.
Qed.

(** X2. When no item fails, [execute] returns the output records of the
    items, one per item and in input order, and the failure mode plays no
    part: a run with the same items and parameters but the other setting of
    [continueOnFail] returns the same. *)
Theorem all_items_succeed (h : Host) (this this' : IExecuteFunctions)
    (encryptionKey : jsstring) :
  env_N8N_ENCRYPTION_KEY h = Some encryptionKey ->
  (0 < length encryptionKey)%nat ->
  let items := getInputData this in
  let key := derive_key encryptionKey in
  (forall i, (i < length items)%nat ->
     exists outputItem, item_outcome h this key items i = inr outputItem) ->
  getInputData this' = items ->
  (forall i, getNodeParameter this' i = getNodeParameter this i) ->
  exists returnData,
    execute h this = inr [returnData] /\
    execute h this' = inr [returnData] /\
    length returnData = length items /\
    forall i outputItem,
      item_outcome h this key items i = inr outputItem -> (i < length items)%nat ->
      returnData !! i = Some outputItem.
Proof.
  intros Henv Hlen. cbv zeta. intros Hall Hitems Hparams.
  set (items := getInputData this) in *. set (key := derive_key encryptionKey) in *.
  exists (List.map (item_record h this key items) (seq 0 (length items))).
  assert (Hrec : forall i, item_record h this' key items i = item_record h this key items i).
  { intros i. unfold item_record, item_outcome.
    now rewrite (position_at_ext h this this'), (process_item_ext h this this')
      by auto. }
  split; [|split; [|split]].
  - unfold execute. rewrite Henv.
    destruct encryptionKey as [|c s]; [cbn [length] in Hlen; lia|].
    fold items key.
    pose proof (execute_loop_succeed h this key items (length items) 0 []) as Hl.
    cbn [position_at app] in Hl. rewrite Hl; [reflexivity|].
    intros i Hi. apply Hall. lia.
  - unfold execute. rewrite Henv, Hitems.
    destruct encryptionKey as [|c s]; [cbn [length] in Hlen; lia|].
    fold key.
    pose proof (execute_loop_succeed h this' key items (length items) 0 []) as Hl.
    cbn [position_at app] in Hl. rewrite Hl.
    + do 2 f_equal. apply map_ext. exact Hrec.
    + intros i Hi. destruct (Hall i) as [o Ho]; [lia|]. exists o.
      unfold item_outcome in *.
      now rewrite (position_at_ext h this this'), (process_item_ext h this this')
        by auto.
  - now rewrite length_map, length_seq.
  - intros i outputItem Ho Hi.
    change (List.map ?f ?l) with (f <$> l).
    rewrite list_lookup_fmap, lookup_seq_lt by exact Hi.
    cbn [fmap option_fmap option_map Nat.add].
    unfold item_record. now rewrite Ho.
Qed.

Lemma all_items_succeed_witness :
  exists returnData,
    execute demo_host demo_this_encrypt = inr [returnData] /\
    execute demo_host
      {| getInputData := take 2 demo_items;
         getNodeParameter := fun _ => demo_parameters 0;
         continueOnFail := true |} = inr [returnData] /\
    length returnData = length (take 2 demo_items) /\
    forall i outputItem,
      item_outcome demo_host demo_this_encrypt demo_key (take 2 demo_items) i
      = inr outputItem ->
      (i < length (take 2 demo_items))%nat ->
      returnData !! i = Some outputItem.
Proof.
  apply (all_items_succeed demo_host demo_this_encrypt
           {| getInputData := take 2 demo_items;
              getNodeParameter := fun _ => demo_parameters 0;
              continueOnFail := true |} demo_secret);
    [reflexivity | vm_compute; lia | | reflexivity | reflexivity].
  intros i Hi. cbn [demo_this_encrypt getInputData take demo_items length] in Hi.
  destruct i as [|[|i]]; [eexists; reflexivity | eexists; reflexivity | lia].
Defined.

(** ** The random tape *)

Lemma process_item_position (h : Host) (this : IExecuteFunctions) (key : list byte)
    (items : list INodeExecutionData) (itemIndex pos : nat) :
  snd (process_item h this key items itemIndex pos)
  = if is_encrypt_item this itemIndex then (pos + 16)%nat else pos.
Proof.
  unfold is_encrypt_item.
  destruct (decide (param_operation (getNodeParameter this itemIndex) = js "encrypt"))
    as [He|He].
  - rewrite bool_decide_eq_true_2 by exact He.
    rewrite (process_item_encrypt h this key items itemIndex pos He), encrypt_result.
    now destruct (length key =? 32)%nat.
  - rewrite bool_decide_eq_false_2 by exact He.
    destruct (decide (param_operation (getNodeParameter this itemIndex) = js "decrypt"))
      as [Hd|Hd].
    + rewrite (process_item_decrypt h this key items itemIndex pos Hd).
      now destruct (decrypt (aes h) key _).
    + now rewrite (process_item_other h this key items itemIndex pos He Hd).
Qed.

(** X6. The random source: when the loop reaches an item it has drawn 16
    bytes for each encrypt item before it and nothing for the others,
    whether those items succeeded or failed; the IV of an encrypt item is
    the next 16 bytes, which no other item reads. *)
Theorem random_bytes_drawn (h : Host) (this : IExecuteFunctions) (key : list byte)
    (items : list INodeExecutionData) (itemIndex : nat) :
  position_at h this key items itemIndex
  = (16 * length (List.filter (is_encrypt_item this) (seq 0 itemIndex)))%nat /\
  (is_encrypt_item this itemIndex = true ->
   position_at h this key items (S itemIndex)
   = (position_at h this key items itemIndex + 16)%nat /\
   fst (process_item h this key items itemIndex (position_at h this key items itemIndex))
   = match encrypt_with_iv (aes h) key
             (List.map (entropy h) (seq (position_at h this key items itemIndex) 16))
             (param_inputField (getNodeParameter this itemIndex))
             (default Hex (opt_outputFormat (param_options (getNodeParameter this itemIndex))))
     with
     | inr token =>
         inr (output_item items itemIndex (getNodeParameter this itemIndex) token)
     | inl e => inl (CipherError e)
     end).
Proof.
  split.
  - induction itemIndex as [|i IH]; [reflexivity|].
    cbn [position_at]. rewrite process_item_position, IH.
    rewrite seq_S, List.filter_app, length_app. cbn [List.filter Nat.add].
    destruct (is_encrypt_item this i); cbn [length]; lia.
  - intros He. split.
    + cbn [position_at]. now rewrite process_item_position, He.
    + unfold is_encrypt_item in He. apply bool_decide_eq_true in He.
      rewrite (process_item_encrypt h this key items itemIndex _ He).
      unfold encrypt, bind, randomBytes, crypto.
      now destruct (encrypt_with_iv _ _ _ _ _).
Qed.

(** ** More on the key *)

(** The 32 code units the key is made of. *)
Lemma padded_secret (s : jsstring) :
  slice0 32 (padEnd 32 48 s) = take 32 s ++ replicate (32 - length s) 48.
Proof.
  unfold slice0, padEnd. rewrite take_app, take_replicate.
  f_equal. f_equal. lia.
Qed.

(** X3. Secrets that differ only by characters [0] at the end, up to 32
    characters in all, derive one and the same key: the padding cannot be
    told from the secret. *)
Theorem derive_key_trailing_zeros (s : jsstring) (n : nat) :
  (length s + n <= 32)%nat ->
  derive_key (s ++ replicate n 48) = derive_key s.
Proof.
  intros Hlen. unfold derive_key. f_equal. rewrite !padded_secret.
  rewrite length_app, length_replicate.
  rewrite !take_ge by (rewrite ?length_app, ?length_replicate; lia).
  rewrite <- app_assoc, <- replicate_add. do 2 f_equal. lia.
Qed.

Lemma derive_key_trailing_zeros_witness :
  derive_key (js "secret" ++ replicate 3 48) = derive_key (js "secret").
Proof.
  apply derive_key_trailing_zeros. vm_compute. lia.
Defined.

(** X4. Only the first 32 characters of the secret count: whatever follows
    them leaves the key unchanged. *)
Theorem derive_key_first_32 (s t : jsstring) :
  (32 <= length s)%nat -> derive_key (s ++ t) = derive_key s.
Proof.
  intros Hlen. unfold derive_key. f_equal. rewrite !padded_secret.
  rewrite length_app, take_app_le by exact Hlen.
  now replace (32 - (length s + length t))%nat with (32 - length s)%nat by lia.
Qed.

Lemma derive_key_first_32_witness :
  derive_key (demo_secret ++ js "and more") = derive_key demo_secret.
Proof.
  apply derive_key_first_32. vm_compute. lia.
Defined.

Lemma length_utf8_of_code_point (c : Z) :
  length (utf8_of_code_point c)
  = if c <? 0x80 then 1%nat
    else if c <? 0x800 then 2%nat
    else if c <? 0x10000 then 3%nat else 4%nat.
Proof.
  unfold utf8_of_code_point.
  destruct (c <? 0x80); [reflexivity|].
  destruct (c <? 0x800); [reflexivity|].
  now destruct (c <? 0x10000).
Qed.

(** A string has at least as many UTF-8 bytes as code units, and as many
    only when it is ASCII. *)
Lemma length_utf8_encode (u : jsstring) :
  Forall is_code_unit u ->
  (length u <= length (utf8_encode u))%nat /\
  (length (utf8_encode u) = length u -> Forall is_ascii u).
Proof.
  unfold utf8_encode.
  remember (length u) as n eqn:Hn. revert u Hn.
  induction n as [n IH] using lt_wf_ind. intros u Hn Hu.
  destruct u as [|c r]; [split; [subst; cbn; lia|constructor]|].
  apply Forall_cons in Hu as [Hc Hr]. unfold is_code_unit in Hc.
  cbn [length] in Hn.
  destruct (IH (length r)) with (u := r) as [IHle IHeq]; [lia|reflexivity|exact Hr|].
  cbn [code_points].
  destruct (is_high_surrogate c) eqn:Hh.
  - destruct r as [|v r'].
    + subst n. cbn. split; [lia|discriminate].
    + apply Forall_cons in Hr as [Hv Hr'].
      destruct (IH (length r')) with (u := r') as [IHle' _];
        [cbn [length] in Hn; lia|reflexivity|exact Hr'|].
      destruct (is_low_surrogate v) eqn:Hl.
      * pose proof (surrogate_pair_scalar c v Hh Hl) as Hcp.
        cbn [flat_map]. rewrite length_app, length_utf8_of_code_point.
        rewrite (proj2 (Z.ltb_ge _ 0x80)), (proj2 (Z.ltb_ge _ 0x800)),
          (proj2 (Z.ltb_ge _ 0x10000)) by lia.
        subst n. cbn [length] in *. split; lia.
      * cbn [flat_map]. rewrite length_app. subst n.
        change (length (utf8_of_code_point 65533)) with 3%nat.
        cbn [length] in *. split; lia.
  - destruct (is_low_surrogate c) eqn:Hl.
    + cbn [flat_map]. rewrite length_app. subst n.
      change (length (utf8_of_code_point 65533)) with 3%nat. split; lia.
    + cbn [flat_map]. rewrite length_app, length_utf8_of_code_point. subst n.
      destruct (Z.ltb_spec c 0x80) as [Hlt|Hge].
      * split; [lia|]. intros Heq. constructor; [unfold is_ascii; lia|].
        apply IHeq. lia.
      * destruct (c <? 0x800); [split; lia|].
        destruct (c <? 0x10000); split; lia.
Qed.

(** X5. The key has 32 bytes exactly when the first 32 characters of the
    secret are ASCII; any other character among them makes it longer, and
    AES-256 then refuses it. *)
Theorem derive_key_length_32_iff (s : jsstring) :
  Forall is_code_unit s ->
  (32 <= length (derive_key s))%nat /\
  (length (derive_key s) = 32%nat <-> Forall is_ascii (take 32 s)).
Proof.
  intros Hs. unfold derive_key. rewrite padded_secret.
  assert (Hlen : length (take 32 s ++ replicate (32 - length s) 48) = 32%nat).
  { rewrite length_app, length_take, length_replicate. lia. }
  assert (Hunits : Forall is_code_unit (take 32 s ++ replicate (32 - length s) 48)).
  { apply Forall_app. split; [now apply Forall_take|].
    apply Forall_replicate. unfold is_code_unit. lia. }
  destruct (length_utf8_encode _ Hunits) as [Hle Heq]. rewrite Hlen in Hle, Heq.
  split; [exact Hle|]. split.
  - intros H32. apply Heq in H32. now apply Forall_app in H32 as [H _].
  - intros Hascii. rewrite utf8_encode_ascii, length_map; [exact Hlen|].
    apply Forall_app. split; [exact Hascii|].
    apply Forall_replicate. unfold is_ascii. lia.
Qed.

Lemma derive_key_length_32_iff_witness :
  (32 <= length (derive_key [233%Z; 97%Z]))%nat /\
  (length (derive_key [233; 97]) = 32%nat <-> Forall is_ascii (take 32 [233; 97])).
Proof.
  apply derive_key_length_32_iff.
  repeat constructor; unfold is_code_unit; lia.
Defined.

(** ** Encrypting in one run, decrypting in another *)

(** The result is in the output object under a name other than
    [__proto__]. *)
Lemma output_item_field (items : list INodeExecutionData) (itemIndex : nat)
    (p : NodeParameters) (result : jsstring) :
  param_outputFieldName p <> js "__proto__" ->
  json (output_item items itemIndex p result) !! param_outputFieldName p
  = Some (JString result).
Proof.
  intros Hname. unfold output_item. cbn [json].
  rewrite assign_field_other by exact Hname. apply lookup_insert_eq.
Qed.

(** X10. What an encrypt item writes, a decrypt item reads back: under a
    secret of ASCII characters, an encrypt item with Unicode text as input
    succeeds, draws 16 random bytes and builds its output object with a
    token, which is stored under [outputFieldName] when that name is not
    [__proto__]; a decrypt item of any later run under the same secret, given
    that token as input, succeeds, draws nothing and builds its output
    object with the original text, stored under its [outputFieldName] when
    that name is not [__proto__]. *)
Theorem encrypt_item_then_decrypt_item (h : Host) (this this' : IExecuteFunctions)
    (secret : jsstring) (items items' : list INodeExecutionData)
    (itemIndex itemIndex' pos pos' : nat) :
  block_cipher_ok (aes h) ->
  Forall is_ascii secret ->
  let key := derive_key secret in
  let p := getNodeParameter this itemIndex in
  let p' := getNodeParameter this' itemIndex' in
  param_operation p = js "encrypt" ->
  isWellFormed (param_inputField p) = true ->
  exists token outputItem,
    process_item h this key items itemIndex pos = (inr outputItem, (pos + 16)%nat) /\
    outputItem = output_item items itemIndex p token /\
    (param_outputFieldName p <> js "__proto__" ->
     json outputItem !! param_outputFieldName p = Some (JString token)) /\
    (param_operation p' = js "decrypt" -> param_inputField p' = token ->
     exists outputItem',
       process_item h this' key items' itemIndex' pos' = (inr outputItem', pos') /\
       outputItem' = output_item items' itemIndex' p' (param_inputField p) /\
       (param_outputFieldName p' <> js "__proto__" ->
        json outputItem' !! param_outputFieldName p'
        = Some (JString (param_inputField p)))).
Proof.
  intros Hok Hsecret. cbv zeta. intros Hop Hwf.
  destruct (derive_key_ascii secret Hsecret) as [_ Hk].
  set (iv := List.map (entropy h) (seq pos 16)).
  assert (Hi : length iv = 16%nat) by (unfold iv; now rewrite length_map, length_seq).
  eexists. eexists. split; [|split; [reflexivity|split]].
  - rewrite (process_item_encrypt h this _ items itemIndex pos Hop).
    now rewrite (encrypt_token h _ _ _ pos Hk).
  - apply output_item_field.
  - intros Hop' Hin. eexists. split; [|split; [reflexivity|]].
    + rewrite (process_item_decrypt h this' _ items' itemIndex' pos' Hop'), Hin.
      fold iv. now rewrite (decrypt_token_text _ Hok _ _ Hk Hi).
    + apply output_item_field.
Qed.

Lemma encrypt_item_then_decrypt_item_witness :
  exists token outputItem,
    process_item demo_host demo_this demo_key demo_items 0%nat 0%nat
    = (inr outputItem, 16%nat) /\
    outputItem = output_item demo_items 0%nat (demo_parameters 0%nat) token /\
    (js "result" <> js "__proto__" ->
     json outputItem !! js "result" = Some (JString token)) /\
    (param_operation (getNodeParameter demo_this_decrypt 0%nat) = js "decrypt" ->
     param_inputField (getNodeParameter demo_this_decrypt 0%nat) = token ->
     exists outputItem',
       process_item demo_host demo_this_decrypt demo_key (take 1 demo_items)
         0%nat 7%nat
       = (inr outputItem', 7%nat) /\
       outputItem' = output_item (take 1 demo_items) 0%nat
                       (getNodeParameter demo_this_decrypt 0%nat) (js "hello world") /\
       (js "plain" <> js "__proto__" ->
        json outputItem' !! js "plain" = Some (JString (js "hello world")))).
Proof.
  apply (encrypt_item_then_decrypt_item demo_host demo_this demo_this_decrypt
           demo_secret demo_items (take 1 demo_items) 0%nat 0%nat 0%nat 7%nat);
    [apply xor_cipher_ok | | reflexivity | reflexivity].
  apply Forall_forall. intros c Hc. apply list_elem_of_In in Hc.
  unfold is_ascii.
  assert (Hall : forallb (fun c => (0 <=? c) && (c <? 128)) demo_secret = true)
    by reflexivity.
  rewrite forallb_forall in Hall. apply Hall in Hc. lia.
Defined.

(** ** The two text paths of the encrypt branch *)

Lemma to_base64url_app (x y : jsstring) :
  to_base64url (x ++ y) = to_base64url x ++ to_base64url y.
Proof.
  unfold to_base64url, remove_all, replace_all.
  now rewrite !List.map_app, List.filter_app.
Qed.

(** X18. The two branches of the encrypt path agree: for the same key, IV
    and input, the base64url token (built from buffers, lines 128 to 141) is
    the base64 token (built through the string decoder of the cipher, lines
    144 to 146) with [+] and [/] replaced and the padding removed; and both
    fail alike. *)
Theorem base64url_token_of_base64_token (a : block_cipher) (key iv : list byte)
    (inputField : jsstring) :
  encrypt_with_iv a key iv inputField Base64URL
  = match encrypt_with_iv a key iv inputField Base64 with
    | inr token => inr (to_base64url token)
    | inl e => inl e
    end.
Proof.
  destruct (Nat.eqb_spec (length iv) 16) as [Hi|Hi];
    [destruct (Nat.eqb_spec (length key) 32) as [Hk|Hk]|].
  - rewrite !encrypt_with_iv_token by assumption. cbn [token_text].
    now rewrite !to_base64url_app.
  - unfold encrypt_with_iv, createCipheriv. rewrite Hi. cbn [Nat.eqb negb].
    now replace (length key =? 32)%nat with false by (symmetry; now apply Nat.eqb_neq).
  - unfold encrypt_with_iv, createCipheriv.
    now replace (length iv =? 16)%nat with false by (symmetry; now apply Nat.eqb_neq).
Qed.

(** ** The base64url text *)

Lemma length_base64_values_of (bs : list byte) :
  length (base64_values_of bs) = ((4 * length bs + 2) / 3)%nat.
Proof.
  induction bs as [|a|a b|a b c r IH] using list_ind3; try reflexivity.
  cbn [base64_values_of length]. rewrite IH.
  replace (4 * S (S (S (length r))) + 2)%nat with (4 * length r + 2 + 4 * 3)%nat by lia.
  rewrite Nat.div_add by lia. lia.
Qed.

(** X17. The base64url text of the encrypt path: for every buffer it
    consists of characters of [[A-Za-z0-9_-]] only, carries no padding, has
    the length of unpadded base64, and the decrypt path decodes it back to
    the buffer. *)
Theorem base64url_text (bs : list byte) :
  forallb is_base64url_char (to_base64url (base64_encode bs)) = true /\
  includes 61 (to_base64url (base64_encode bs)) = false /\
  length (to_base64url (base64_encode bs)) = ((4 * length bs + 2) / 3)%nat /\
  Buffer_from (from_base64url (to_base64url (base64_encode bs))) base64 = bs.
Proof.
  pose proof (base64_values_of_range bs) as Hr.
  destruct (base64url_chars_class _ Hr) as [Hc _].
  split; [now rewrite to_base64url_encode|]. split; [|split].
  - apply (includes_class is_base64url_char); [reflexivity|].
    now rewrite to_base64url_encode.
  - now rewrite to_base64url_encode, length_map, length_base64_values_of.
  - apply base64url_decode_encode.
Qed.

(** ** What the detection and the decoding let through *)

(** X13. The three detection rules exclude one another (by the length, and
    because [+], [/] and [=] are no base64url characters), so what is
    detected does not depend on the order in which lines 161 to 170 try
    them: each outcome holds exactly when its own rule does. *)
Theorem detection_rules_exclusive (ivString : jsstring) :
  ~ (rule_hex ivString /\ rule_base64 ivString) /\
  ~ (rule_hex ivString /\ rule_base64url ivString) /\
  ~ (rule_base64 ivString /\ rule_base64url ivString) /\
  (detect_encoding ivString = Some (hex, false) <-> rule_hex ivString) /\
  (detect_encoding ivString = Some (base64, false) <-> rule_base64 ivString) /\
  (detect_encoding ivString = Some (base64, true) <-> rule_base64url ivString) /\
  (detect_encoding ivString = None <->
   ~ rule_hex ivString /\ ~ rule_base64 ivString /\ ~ rule_base64url ivString).
Proof.
  assert (E1 : ~ (rule_hex ivString /\ rule_base64 ivString)).
  { intros [[Hl _] [[Hl'|Hl'] _]]; congruence. }
  assert (E2 : ~ (rule_hex ivString /\ rule_base64url ivString)).
  { intros [[Hl _] [Hl' _]]; congruence. }
  assert (E3 : ~ (rule_base64 ivString /\ rule_base64url ivString)).
  { intros [[_ Hp] [_ Hc]]. apply Exists_exists in Hp as (c & Hin & Hp).
    rewrite Forall_forall in Hc. specialize (Hc c Hin).
    apply base64url_char_not_punct in Hc. unfold is_base64_punct in Hc.
    destruct Hp as [->|[->| ->]]; discriminate Hc. }
  assert (D1 : rule_hex ivString \/ ~ rule_hex ivString).
  { pose proof (rule_hex_test ivString) as H.
    destruct ((length ivString =? 32)%nat && test_all is_hex_char ivString);
      [left; now apply H|right; intros Hr; apply H in Hr; discriminate Hr]. }
  assert (D2 : rule_base64 ivString \/ ~ rule_base64 ivString).
  { pose proof (rule_base64_test ivString) as H.
    destruct (((length ivString =? 24)%nat || (length ivString =? 22)%nat)
              && test_any is_base64_punct ivString);
      [left; now apply H|right; intros Hr; apply H in Hr; discriminate Hr]. }
  assert (D3 : rule_base64url ivString \/ ~ rule_base64url ivString).
  { pose proof (rule_base64url_test ivString) as H.
    destruct ((length ivString =? 22)%nat && test_all is_base64url_char ivString);
      [left; now apply H|right; intros Hr; apply H in Hr; discriminate Hr]. }
  destruct (detect_encoding_rules ivString) as (R1 & R2 & R3 & R4).
  split; [exact E1|]. split; [exact E2|]. split; [exact E3|].
  destruct D1 as [r1|n1].
  - rewrite (R1 r1). intuition congruence.
  - destruct D2 as [r2|n2].
    + rewrite (R2 n1 r2). intuition congruence.
    + destruct D3 as [r3|n3].
      * rewrite (R3 n1 n2 r3). intuition congruence.
      * rewrite (R4 n1 n2 n3). intuition congruence.
Qed.

Lemma base64_values_from_base64url (s : jsstring) :
  base64_values (from_base64url s) = base64_values s.
Proof.
  unfold from_base64url, replace_all.
  induction s as [|c s IH]; [reflexivity|].
  cbn [List.map base64_values]. rewrite IH.
  destruct (Z.eqb_spec c 45) as [->|H45]; [reflexivity|].
  destruct (Z.eqb_spec c 95) as [->|H95]; reflexivity.
Qed.

(** X12. The ambiguity of the 22-character IV is harmless: when the IV
    segment of a token is detected as base64url, decrypt returns what it
    would return had it decoded both segments as standard base64, since
    [Buffer.from] reads the characters [-] and [_] like [+] and [/]. *)
Theorem base64url_path_is_base64_path (a : block_cipher) (key : list byte)
    (inputField ivString encryptedData : jsstring) :
  split 46 inputField = [ivString; encryptedData] ->
  detect_encoding ivString = Some (base64, true) ->
  decrypt a key inputField
  = match decipher_token a key ivString encryptedData base64 false with
    | inl error => inl (DecryptionFailed error)
    | inr decrypted => inr decrypted
    end.
Proof.
  intros Hs Hd. rewrite (decrypt_two_segments _ _ _ _ _ Hs), Hd.
  unfold decipher_token. cbn [Buffer_from]. unfold base64_decode.
  now rewrite !base64_values_from_base64url.
Qed.

Lemma base64url_path_is_base64_path_witness :
  decrypt xor_cipher demo_key (js "Zm9vYmFyYmF6cXV1eHhhQQ.AAAA")
  = match decipher_token xor_cipher demo_key (js "Zm9vYmFyYmF6cXV1eHhhQQ")
            (js "AAAA") base64 false with
    | inl error => inl (DecryptionFailed error)
    | inr decrypted => inr decrypted
    end.
Proof.
  apply (base64url_path_is_base64_path xor_cipher demo_key
           (js "Zm9vYmFyYmF6cXV1eHhhQQ.AAAA") (js "Zm9vYmFyYmF6cXV1eHhhQQ")
           (js "AAAA")); reflexivity.
Defined.

Lemma toUpperCase_app (x y : jsstring) :
  toUpperCase (x ++ y) = toUpperCase x ++ toUpperCase y.
Proof. unfold toUpperCase. apply List.map_app. Qed.

Lemma upper_hex_digit (d : Z) :
  0 <= d < 16 ->
  let c := if is_lower (hex_digit d) then hex_digit d - 32 else hex_digit d in
  unhex c = Some d /\ is_hex_char c = true.
Proof.
  revert d.
  apply (all_below 16 (fun d =>
    let c := if is_lower (hex_digit d) then hex_digit d - 32 else hex_digit d in
    unhex c = Some d /\ is_hex_char c = true)).
  vm_compute. reflexivity.
Qed.

Lemma toUpperCase_hex_encode (bs : list byte) :
  hex_decode (toUpperCase (hex_encode bs)) = bs /\
  forallb is_hex_char (toUpperCase (hex_encode bs)) = true /\
  length (toUpperCase (hex_encode bs)) = (2 * length bs)%nat.
Proof.
  split; [|split].
  - induction bs as [|b bs IH]; [reflexivity|].
    destruct (byte_nibbles b) as [Hh Hl].
    destruct (upper_hex_digit _ Hh) as [Hu1 _]. destruct (upper_hex_digit _ Hl) as [Hu2 _].
    cbv zeta in Hu1, Hu2.
    cbn [hex_encode flat_map app toUpperCase List.map hex_decode].
    rewrite Hu1, Hu2. fold (hex_encode bs). fold (toUpperCase (hex_encode bs)).
    rewrite IH. f_equal. apply byte_of_Z_eq.
    pose proof (Z.div_mod (byte_to_Z b) 16). lia.
  - induction bs as [|b bs IH]; [reflexivity|].
    destruct (byte_nibbles b) as [Hh Hl].
    destruct (upper_hex_digit _ Hh) as [_ Hu1]. destruct (upper_hex_digit _ Hl) as [_ Hu2].
    cbv zeta in Hu1, Hu2.
    cbn [hex_encode flat_map app toUpperCase List.map forallb].
    rewrite Hu1, Hu2. fold (hex_encode bs). fold (toUpperCase (hex_encode bs)).
    now rewrite IH.
  - unfold toUpperCase. now rewrite length_map, length_hex_encode.
Qed.

(** X11. Decrypt reads hexadecimal tokens in either case: a hex token
    turned to upper case (the form many tools print) is detected as hex and
    decrypts to what the token itself decrypts to. *)
Theorem decrypt_upper_case_hex (a : block_cipher) (key iv ct : list byte) :
  length iv = 16%nat ->
  decrypt a key (toUpperCase (token_text Hex iv ct))
  = decrypt a key (token_text Hex iv ct).
Proof.
  intros Hi.
  destruct (toUpperCase_hex_encode iv) as (Hiv & Hciv & Hliv).
  destruct (toUpperCase_hex_encode ct) as (Hct & Hcct & _).
  cbn [token_text app]. rewrite toUpperCase_app.
  change (toUpperCase (46 :: hex_encode ct)) with (46 :: toUpperCase (hex_encode ct)).
  rewrite (decrypt_two_segments a key _ (toUpperCase (hex_encode iv))
             (toUpperCase (hex_encode ct)))
    by (apply split_two; apply (includes_class is_hex_char); auto).
  rewrite (decrypt_two_segments a key _ (hex_encode iv) (hex_encode ct))
    by (apply split_two; apply includes_hex_encode).
  rewrite detect_hex_iv by exact Hi.
  assert (Hd : detect_encoding (toUpperCase (hex_encode iv)) = Some (hex, false)).
  { apply detect_encoding_rules. split; [rewrite Hliv; lia|].
    apply Forall_forall. intros c Hc. rewrite forallb_forall in Hciv.
    now apply Hciv, list_elem_of_In. }
  rewrite Hd. unfold decipher_token. cbn [Buffer_from].
  now rewrite Hiv, Hct, !hex_decode_encode.
Qed.

Lemma decrypt_upper_case_hex_witness :
  decrypt xor_cipher demo_key
    (toUpperCase (token_text Hex (List.map (entropy demo_host) (seq 0 16))
                    (cbc_encrypt xor_cipher demo_key
                       (List.map (entropy demo_host) (seq 0 16))
                       (utf8_encode (js "hello world")))))
  = decrypt xor_cipher demo_key
      (token_text Hex (List.map (entropy demo_host) (seq 0 16))
         (cbc_encrypt xor_cipher demo_key (List.map (entropy demo_host) (seq 0 16))
            (utf8_encode (js "hello world")))).
Proof.
  apply decrypt_upper_case_hex. reflexivity.
Defined.

Lemma hex_decode_encode_app (bs : list byte) (rest : jsstring) :
  hex_decode (hex_encode bs ++ rest) = bs ++ hex_decode rest.
Proof.
  induction bs as [|b bs IH]; [reflexivity|].
  destruct (byte_nibbles b) as [Hh Hl].
  cbn [hex_encode flat_map app hex_decode].
  rewrite (unhex_hex_digit _ Hh), (unhex_hex_digit _ Hl).
  fold (hex_encode bs). rewrite IH. cbn [app]. f_equal.
  apply byte_of_Z_eq. pose proof (Z.div_mod (byte_to_Z b) 16). lia.
Qed.

(** X15. Decrypt does not check the characters of the ciphertext segment:
    whatever follows a hex token, from the first character that
    [Buffer.from] does not read as a hexadecimal digit on (it reads a
    character by the low byte of its code unit), is dropped, and the token
    decrypts as if it were not there. *)
Theorem hex_ciphertext_tail_ignored (a : block_cipher) (key iv ct : list byte)
    (c : Z) (tail : jsstring) :
  length iv = 16%nat ->
  unhex c = None ->
  includes 46 (c :: tail) = false ->
  decrypt a key (token_text Hex iv ct ++ c :: tail)
  = decrypt a key (token_text Hex iv ct).
Proof.
  intros Hi Hc Ht. cbn [token_text app].
  rewrite <- app_assoc. cbn [app].
  rewrite (decrypt_two_segments a key _ (hex_encode iv) (hex_encode ct ++ c :: tail)).
  2:{ apply split_two; [apply includes_hex_encode|].
      now rewrite includes_app, includes_hex_encode, Ht. }
  rewrite (decrypt_two_segments a key _ (hex_encode iv) (hex_encode ct))
    by (apply split_two; apply includes_hex_encode).
  rewrite detect_hex_iv by exact Hi.
  unfold decipher_token. cbn [Buffer_from].
  rewrite hex_decode_encode_app, !hex_decode_encode.
  assert (Hnil : hex_decode (c :: tail) = []).
  { destruct tail as [|d tail]; [reflexivity|]. cbn [hex_decode]. now rewrite Hc. }
  now rewrite Hnil, app_nil_r.
Qed.

Lemma hex_ciphertext_tail_ignored_witness :
  decrypt xor_cipher demo_key
    (token_text Hex (List.map (entropy demo_host) (seq 0 16))
       (cbc_encrypt xor_cipher demo_key (List.map (entropy demo_host) (seq 0 16))
          (utf8_encode (js "hello world")))
     ++ 32 :: js "not hex")
  = decrypt xor_cipher demo_key
      (token_text Hex (List.map (entropy demo_host) (seq 0 16))
         (cbc_encrypt xor_cipher demo_key (List.map (entropy demo_host) (seq 0 16))
            (utf8_encode (js "hello world")))).
Proof.
  apply hex_ciphertext_tail_ignored; reflexivity.
Defined.

(** ** The size of a token *)

Lemma length_base64_encode (bs : list byte) :
  length (base64_encode bs) = (4 * ((length bs + 2) / 3))%nat.
Proof.
  induction bs as [|a|a b|a b c r IH] using list_ind3; try reflexivity.
  cbn [base64_encode length]. rewrite IH.
  replace (S (S (S (length r))) + 2)%nat with (length r + 2 + 1 * 3)%nat by lia.
  rewrite Nat.div_add by lia. lia.
Qed.

Lemma length_token_text (F : OutputFormat) (iv ct : list byte) :
  length iv = 16%nat ->
  length (token_text F iv ct)
  = match F with
    | Hex => (33 + 2 * length ct)%nat
    | Base64 => (25 + 4 * ((length ct + 2) / 3))%nat
    | Base64URL => (23 + (4 * length ct + 2) / 3)%nat
    end.
Proof.
  intros Hi. destruct F; cbn [token_text]; rewrite !length_app; cbn [length].
  - rewrite !length_hex_encode, Hi. lia.
  - rewrite !length_base64_encode, Hi. cbn. lia.
  - rewrite !to_base64url_encode, !length_map, !length_base64_values_of, Hi. cbn. lia.
Qed.

(** X14. The size of a token: the ciphertext has 16 bytes for every
    started block of 16 plaintext bytes and 16 more when the plaintext ends
    on a block boundary, so with [q] the number of complete 16-byte blocks
    in the UTF-8 bytes of the input, the token has [65 + 32 q] characters
    in hex, [25 + 4 ((16 (q + 1) + 2) / 3)] in base64 and
    [23 + (64 (q + 1) + 2) / 3] in base64url. *)
Theorem token_length (h : Host) (key : list byte) (P : jsstring) (F : OutputFormat)
    (pos : nat) :
  block_cipher_ok (aes h) -> length key = 32%nat ->
  let q := (length (utf8_encode P) / 16)%nat in
  exists token,
    fst (encrypt h key P F pos) = inr token /\
    length token
    = match F with
      | Hex => (65 + 32 * q)%nat
      | Base64 => (25 + 4 * ((16 * (q + 1) + 2) / 3))%nat
      | Base64URL => (23 + (64 * (q + 1) + 2) / 3)%nat
      end.
Proof.
  intros Hok Hk. cbv zeta. rewrite (encrypt_token h key P F pos Hk). cbn [fst].
  assert (Hi : length (List.map (entropy h) (seq pos 16)) = 16%nat)
    by now rewrite length_map, length_seq.
  eexists. split; [reflexivity|].
  rewrite (length_token_text _ _ _ Hi), (length_cbc_encrypt _ Hok _ _ Hk Hi).
  rewrite length_pkcs7_pad.
  pose proof (Nat.div_mod_eq (length (utf8_encode P)) 16) as Hdm.
  pose proof (Nat.mod_upper_bound (length (utf8_encode P)) 16) as Hub.
  replace (length (utf8_encode P) + (16 - length (utf8_encode P) mod 16))%nat
    with (16 * (length (utf8_encode P) / 16 + 1))%nat by lia.
  destruct F; [lia|reflexivity|].
  do 2 f_equal. lia.
Qed.

Lemma token_length_witness :
  exists token,
    fst (encrypt demo_host demo_key (js "hello world") Base64 0%nat) = inr token /\
    length token = 49%nat.
Proof.
  exact (token_length demo_host demo_key (js "hello world") Base64 0%nat
           xor_cipher_ok eq_refl).
Defined.

(** ** Ciphertexts of the wrong length *)

Lemma token_text_segments (F : OutputFormat) (iv ct : list byte) :
  length iv = 16%nat ->
  exists ivString encryptedData encoding isBase64Url,
    split 46 (token_text F iv ct) = [ivString; encryptedData] /\
    detect_encoding ivString = Some (encoding, isBase64Url) /\
    forall a key,
      decipher_token a key ivString encryptedData encoding isBase64Url
      = match createDecipheriv key iv with
        | inl e => inl e
        | inr decipher => decipher_string a decipher ct
        end.
Proof.
  intros Hi. destruct F; cbn [token_text app].
  - exists (hex_encode iv), (hex_encode ct), hex, false.
    split; [apply split_two; apply includes_hex_encode|].
    split; [now apply detect_hex_iv|]. intros a key.
    unfold decipher_token. cbn [Buffer_from]. now rewrite !hex_decode_encode.
  - exists (base64_encode iv), (base64_encode ct), base64, false.
    split; [apply split_two; apply includes_base64_encode|].
    split; [now apply detect_base64_iv|]. intros a key.
    unfold decipher_token. cbn [Buffer_from]. now rewrite !base64_decode_encode.
  - exists (to_base64url (base64_encode iv)), (to_base64url (base64_encode ct)),
      base64, true.
    split; [apply split_two; apply includes_base64url_encode|].
    split; [now apply detect_base64url_iv|]. intros a key.
    unfold decipher_token. cbn [Buffer_from]. now rewrite !base64url_decode_encode.
Qed.

(** X19. A token in any of the three formats whose ciphertext is empty or
    no multiple of 16 bytes (a token cut short, say) is refused by decrypt
    with the decryption error 'wrong final block length', under every 32-byte
    key; it is never deciphered in part. *)
Theorem decrypt_wrong_length (a : block_cipher) (key iv ct : list byte)
    (F : OutputFormat) :
  length key = 32%nat -> length iv = 16%nat ->
  (length ct mod 16 <> 0)%nat \/ ct = [] ->
  decrypt a key (token_text F iv ct) = inl (DecryptionFailed WrongFinalBlockLength).
Proof.
  intros Hk Hi Hct.
  destruct (token_text_segments F iv ct Hi)
    as (ivString & encryptedData & encoding & isBase64Url & Hs & Hd & Hdec).
  rewrite (decrypt_two_segments _ _ _ _ _ Hs), Hd, Hdec.
  rewrite (createDecipheriv_ok key iv Hk Hi).
  unfold decipher_string, decipher_bytes.
  replace ((length ct =? 0)%nat || negb (length ct mod 16 =? 0)%nat) with true;
    [reflexivity|].
  symmetry. apply orb_true_iff. destruct Hct as [Hm| ->]; [right|now left].
  apply negb_true_iff. now apply Nat.eqb_neq.
Qed.

Lemma decrypt_wrong_length_witness :
  decrypt xor_cipher demo_key
    (token_text Base64URL (List.map (entropy demo_host) (seq 0 16))
       (take 15 (cbc_encrypt xor_cipher demo_key
                   (List.map (entropy demo_host) (seq 0 16))
                   (utf8_encode (js "hello world")))))
  = inl (DecryptionFailed WrongFinalBlockLength).
Proof.
  apply decrypt_wrong_length; [reflexivity | reflexivity |].
  left. vm_compute. lia.
Defined.

(** ** What decrypt returns *)

Lemma in_range_spec (lo hi z : Z) : in_range lo hi z = true <-> lo <= z <= hi.
Proof. unfold in_range. rewrite andb_true_iff, !Z.leb_le. tauto. Qed.

Lemma is_continuation_spec (lo hi : Z) (b : byte) :
  is_continuation lo hi b = true -> lo <= cont_bits b + 0x80 <= hi.
Proof.
  unfold is_continuation, cont_bits. rewrite in_range_spec. lia.
Qed.

Lemma two_bytes_scalar (z0 : Z) (b1 : byte) :
  in_range 0xC2 0xDF z0 = true -> is_continuation 0x80 0xBF b1 = true ->
  is_scalar ((z0 - 0xC0) * 64 + cont_bits b1).
Proof.
  intros H0%in_range_spec H1%is_continuation_spec. unfold is_scalar. lia.
Qed.

Lemma three_bytes_scalar (z0 : Z) (b1 b2 : byte) :
  in_range 0xE0 0xEF z0 = true ->
  is_continuation (if z0 =? 0xE0 then 0xA0 else 0x80)
                  (if z0 =? 0xED then 0x9F else 0xBF) b1 = true ->
  is_continuation 0x80 0xBF b2 = true ->
  is_scalar ((z0 - 0xE0) * 4096 + cont_bits b1 * 64 + cont_bits b2).
Proof.
  intros H0%in_range_spec H1%is_continuation_spec H2%is_continuation_spec.
  unfold is_scalar.
  destruct (Z.eqb_spec z0 0xE0); destruct (Z.eqb_spec z0 0xED); lia.
Qed.

Lemma four_bytes_scalar (z0 : Z) (b1 b2 b3 : byte) :
  in_range 0xF0 0xF4 z0 = true ->
  is_continuation (if z0 =? 0xF0 then 0x90 else 0x80)
                  (if z0 =? 0xF4 then 0x8F else 0xBF) b1 = true ->
  is_continuation 0x80 0xBF b2 = true ->
  is_continuation 0x80 0xBF b3 = true ->
  is_scalar ((z0 - 0xF0) * 262144 + cont_bits b1 * 4096 + cont_bits b2 * 64
             + cont_bits b3).
Proof.
  intros H0%in_range_spec H1%is_continuation_spec H2%is_continuation_spec
    H3%is_continuation_spec.
  unfold is_scalar.
  destruct (Z.eqb_spec z0 0xF0); destruct (Z.eqb_spec z0 0xF4); lia.
Qed.

Lemma replacement_scalar : is_scalar 0xFFFD.
Proof. unfold is_scalar. lia. Qed.

(** Whatever the bytes, the decoder yields Unicode scalar values. *)
Lemma utf8_decode_scalar (bs : list byte) : Forall is_scalar (utf8_decode bs).
Proof.
  remember (length bs) as n eqn:Hn. revert bs Hn.
  induction n as [n IH] using lt_wf_ind. intros bs ->.
  assert (Htail : forall r, (length r < length bs)%nat ->
                            Forall is_scalar (utf8_decode r)).
  { intros r Hr. now apply (IH (length r)). }
  clear IH.
  destruct bs as [|b0 r0]; [constructor|].
  cbn [utf8_decode]. cbv zeta. cbn [length] in Htail.
  pose proof (byte_to_Z_range b0) as Hb0.
  destruct (byte_to_Z b0 <? 0x80) eqn:E1.
  { constructor; [unfold is_scalar; lia|]. apply Htail. lia. }
  destruct (in_range 0xC2 0xDF (byte_to_Z b0)) eqn:E2.
  { destruct r0 as [|b1 r1]; [apply Forall_cons_2; [apply replacement_scalar|apply Forall_nil_2]|].
    cbn [length] in Htail.
    destruct (is_continuation 0x80 0xBF b1) eqn:C1;
      (constructor; [|apply Htail; cbn [length]; lia]).
    - now apply two_bytes_scalar.
    - apply replacement_scalar. }
  destruct (in_range 0xE0 0xEF (byte_to_Z b0)) eqn:E3.
  { destruct r0 as [|b1 r1]; [apply Forall_cons_2; [apply replacement_scalar|apply Forall_nil_2]|].
    cbn [length] in Htail.
    destruct (is_continuation _ _ b1) eqn:C1;
      [|constructor; [apply replacement_scalar|apply Htail; cbn [length]; lia]].
    destruct r1 as [|b2 r2]; [apply Forall_cons_2; [apply replacement_scalar|apply Forall_nil_2]|].
    cbn [length] in Htail.
    destruct (is_continuation 0x80 0xBF b2) eqn:C2;
      (constructor; [|apply Htail; cbn [length]; lia]).
    - now apply three_bytes_scalar.
    - apply replacement_scalar. }
  destruct (in_range 0xF0 0xF4 (byte_to_Z b0)) eqn:E4.
  { destruct r0 as [|b1 r1]; [apply Forall_cons_2; [apply replacement_scalar|apply Forall_nil_2]|].
    cbn [length] in Htail.
    destruct (is_continuation _ _ b1) eqn:C1;
      [|constructor; [apply replacement_scalar|apply Htail; cbn [length]; lia]].
    destruct r1 as [|b2 r2]; [apply Forall_cons_2; [apply replacement_scalar|apply Forall_nil_2]|].
    cbn [length] in Htail.
    destruct (is_continuation 0x80 0xBF b2) eqn:C2;
      [|constructor; [apply replacement_scalar|apply Htail; cbn [length]; lia]].
    destruct r2 as [|b3 r3]; [apply Forall_cons_2; [apply replacement_scalar|apply Forall_nil_2]|].
    cbn [length] in Htail.
    destruct (is_continuation 0x80 0xBF b3) eqn:C3;
      (constructor; [|apply Htail; cbn [length]; lia]).
    - now apply four_bytes_scalar.
    - apply replacement_scalar. }
  constructor; [apply replacement_scalar|]. apply Htail. lia.
Qed.

Lemma isWellFormed_code_point (c : Z) (rest : jsstring) :
  is_scalar c ->
  isWellFormed (utf16_of_code_point c ++ rest) = isWellFormed rest.
Proof.
  intros Hc. unfold is_scalar in Hc. unfold utf16_of_code_point.
  destruct (Z.ltb_spec c 0x10000) as [Hlt|Hge].
  - cbn [app isWellFormed]. unfold is_high_surrogate, is_low_surrogate.
    destruct Hc as [Hc|Hc].
    + rewrite (in_range_false 0xD800 0xDBFF c), (in_range_false 0xDC00 0xDFFF c),
        (in_range_true 0 0xFFFF c) by lia. reflexivity.
    + rewrite (in_range_false 0xD800 0xDBFF c), (in_range_false 0xDC00 0xDFFF c),
        (in_range_true 0 0xFFFF c) by lia. reflexivity.
  - cbn [app isWellFormed]. unfold is_high_surrogate, is_low_surrogate.
    rewrite in_range_true by (Z.to_euclidean_division_equations; lia).
    rewrite in_range_true by (Z.to_euclidean_division_equations; lia).
    reflexivity.
Qed.

Lemma utf8_decode_string_well_formed (bs : list byte) :
  isWellFormed (utf8_decode_string bs) = true.
Proof.
  unfold utf8_decode_string.
  induction (utf8_decode_scalar bs) as [|c cs Hc _ IH]; [reflexivity|].
  cbn [flat_map]. now rewrite isWellFormed_code_point.
Qed.

(** X16. Whatever the token, the key and the cipher, a string that decrypt
    returns is Unicode text, without unpaired surrogates, also when the
    deciphered bytes are no valid UTF-8; so it can be encrypted again and
    comes back unchanged. *)
Theorem decrypt_returns_text (a : block_cipher) (key : list byte)
    (inputField decrypted : jsstring) :
  decrypt a key inputField = inr decrypted ->
  isWellFormed decrypted = true /\
  utf8_decode_string (utf8_encode decrypted) = decrypted.
Proof.
  intros Hd.
  assert (Hwf : isWellFormed decrypted = true).
  { unfold decrypt in Hd.
    destruct (negb (includes 46 inputField)); [discriminate Hd|].
    destruct (negb (length (split 46 inputField) =? 2)%nat); [discriminate Hd|].
    destruct (detect_encoding _) as [[encoding isBase64Url]|]; [|discriminate Hd].
    unfold decipher_token in Hd.
    destruct (if isBase64Url then _ else _) as [iv encryptedBuffer].
    destruct (createDecipheriv key iv) as [e|decipher]; [discriminate Hd|].
    unfold decipher_string in Hd.
    destruct (decipher_bytes a decipher encryptedBuffer) as [e|plain];
      [discriminate Hd|].
    injection Hd as <-. apply utf8_decode_string_well_formed. }
  split; [exact Hwf|]. now apply utf8_decode_encode.
Qed.

Lemma decrypt_returns_text_witness :
  isWellFormed (js "hello world") = true /\
  utf8_decode_string (utf8_encode (js "hello world")) = js "hello world".
Proof.
  apply (decrypt_returns_text xor_cipher demo_key
           (js "0b30557a9fc4e90e33587da2c7ec1136.53640b25c4d1a856790d78c5a18d7155")
           (js "hello world")).
  vm_compute. reflexivity.
Defined.
